(** * clean-run: the dependency scanner and the orchestrator of [index.js]

    A shallow embedding of [src/index.js]: the lexical scan for
    [require("...")] expressions, the recursive walk over relative imports
    ([scanDeps]), the option parser ([parseArgs]), the child-process wrapper
    ([spawnAsync]) and the sequence scan, install, run, clean ([main]).

    The Node.js runtime is not part of the repository.  Its pure string
    functions ([String.prototype.split], [path.dirname], [path.resolve], the
    regular-expression engine restricted to the one pattern the program uses)
    are given by definitions; what depends on the machine the program runs on
    ([module.builtinModules], [require.resolve], [process.cwd()], the children
    that [child_process.spawn] starts) is a variable of the sections below. *)

From Stdlib Require Import Ascii.
From stdpp Require Import gmap strings list fin_maps fin_sets relations.

Local Open Scope stdpp_scope.

(** ** JavaScript string primitives *)

Module Js.

(** [s.startsWith(p)]. *)
Definition startsWith (p s : string) : bool := String.prefix p s.

(** [s.split(sep)] for a separator of one character: never empty, and a
  separator at either end gives an empty first or last piece. *)
Fixpoint split (sep : ascii) (s : string) : list string :=
match s with
| "" => [""]
| String c s' =>
    if Ascii.eqb c sep then "" :: split sep s'
    else match split sep s' with
         | seg :: segs => String c seg :: segs
         | [] => [String c ""]
         end
end.

(** [l.join(sep)]. *)
Definition join (sep : string) (l : list string) : string := String.concat sep l.

(** [l.slice(0, n)]. *)
Definition slice0 {A} (n : nat) (l : list A) : list A := take n l.

(** [l[0]] of an array of strings that [split] returned. *)
Definition first (l : list string) : string := default "" (head l).

(** [\w] of a regular expression without the unicode flag. *)
Definition is_word (c : ascii) : bool :=
let n := nat_of_ascii c in
((48 <=? n) && (n <=? 57)) || ((65 <=? n) && (n <=? 90))
|| (n =? 95) || ((97 <=? n) && (n <=? 122)).

(** A [Set] of strings: membership by value, iteration (and so the spread
  [...deps]) in insertion order. *)
Definition set_add (x : string) (s : list string) : list string :=
if bool_decide (x ∈ s) then s else s ++ [x].

End Js.

(** ** The pattern of [scanDeps]

    A word boundary, the text [require(], a quote (single or double, group 1),
    any number of characters that are not a quote (group 2), and the quote of
    group 1 again; with the flag [g].  Texts are strings of bytes here: the
    pattern has no unicode flag, and tells apart only the letters, digits and
    underscore of [\w] and the two quotes, which are all below 128. *)

Module Re.

(** The double quote, character 34. *)
Definition dquote : ascii := "034"%char.

(** The same as a string, to build source texts with. *)
Definition dq : string := String dquote "".

Definition is_quote (c : ascii) : bool := Ascii.eqb c "'"%char || Ascii.eqb c dquote.

Definition word_of (c : option ascii) : bool :=
match c with Some c => Js.is_word c | None => false end.

(** [\b] between the character before the position and the one at it. *)
Definition word_boundary (prev : option ascii) (s : string) : bool :=
xorb (word_of prev) (word_of (String.get 0 s)).

Fixpoint strip_prefix (p s : string) : option string :=
match p, s with
| "", _ => Some s
| String a p', String b s' => if Ascii.eqb a b then strip_prefix p' s' else None
| String _ _, "" => None
end.

(** Group 2: the longest run without a quote, and what follows it.  The
  group is greedy and what must follow it is a quote, so giving characters
  back never helps: every character of the run is not a quote. *)
Fixpoint span_body (s : string) : string * string :=
match s with
| "" => ("", "")
| String c s' =>
    if is_quote c then ("", s)
    else let '(body, tail) := span_body s' in (String c body, tail)
end.

(** One attempt at one position: group 2 of the match, the character before
  the position after the match, and the text after the match. *)
Definition match_here (prev : option ascii) (s : string)
: option (string * (option ascii * string)) :=
if word_boundary prev s then
  match strip_prefix "require(" s with
  | Some (String q rest) =>
      if is_quote q then
        match span_body rest with
        | (body, String q' tail) =>
            if Ascii.eqb q' q then Some (body, (Some q', tail)) else None
        | (_, "") => None
        end
      else None
  | _ => None
  end
else None.

(** [re.exec(code)] from the position [lastIndex]: the position is kept as
  the text from [lastIndex] on, with the character before it.  The first
  position at which the pattern matches wins. *)
Fixpoint exec (prev : option ascii) (s : string)
: option (string * (option ascii * string)) :=
match match_here prev s with
| Some r => Some r
| None =>
    match s with
    | "" => None
    | String c s' => exec (Some c) s'
    end
end.

(** [while (match = re.exec(code)) ...]: the successive values of
  [match[2]].  Every match is ten characters or more, so the length of the
  text is fuel enough ([all_fuel] below). *)
Fixpoint all (fuel : nat) (prev : option ascii) (s : string) : list string :=
match fuel with
| 0 => []
| S fuel' =>
    match exec prev s with
    | None => []
    | Some (m, (prev', s')) => m :: all fuel' prev' s'
    end
end.

Definition matches (code : string) : list string :=
all (String.length code) None code.

End Re.

(** ** [path.dirname] and [path.resolve] of Node.js (POSIX) *)

Module Path.

(** The loop of [path.dirname]: [i] runs from [path.length - 1] down to 1 and
  stops at the first [/] that follows a character that is not one. *)
Fixpoint dirname_loop (path : string) (i : nat) (matchedSlash : bool) : option nat :=
match i with
| 0 => None
| S i' =>
    match String.get i path with
    | Some "/"%char => if matchedSlash then dirname_loop path i' true else Some i
    | _ => dirname_loop path i' false
    end
end.

Definition dirname (path : string) : string :=
if String.length path =? 0 then "."
else
  let hasRoot := bool_decide (String.get 0 path = Some "/"%char) in
  match dirname_loop path (String.length path - 1) true with
  | None => if hasRoot then "/" else "."
  | Some e => if hasRoot && (e =? 1) then "//" else String.substring 0 e path
  end.

(** [normalizeString], by its action on the pieces between separators: empty
  pieces and [.] vanish, [..] removes the piece before it, and is kept only
  where there is nothing to remove and the path is not absolute.  The stack
  has the last piece first. *)
Definition norm_step (allowAboveRoot : bool) (stack : list string) (seg : string)
: list string :=
if bool_decide (seg = "") || bool_decide (seg = ".") then stack
else if bool_decide (seg = "..") then
  match stack with
  | top :: below =>
      if bool_decide (top = "..")
      then (if allowAboveRoot then ".." :: stack else stack)
      else below
  | [] => if allowAboveRoot then [".."] else []
  end
else seg :: stack.

Definition normalizeString (path : string) (allowAboveRoot : bool) : string :=
Js.join "/" (rev (fold_left (norm_step allowAboveRoot) (Js.split "/" path) [])).

(** The loop of [path.resolve]: the arguments from the last to the first and
  then the working directory, until an absolute one was prepended. *)
Fixpoint resolve_loop (paths : list string) (resolvedPath : string) : string * bool :=
match paths with
| [] => (resolvedPath, false)
| p :: paths' =>
    if String.length p =? 0 then resolve_loop paths' resolvedPath
    else
      let resolvedPath := p +:+ "/" +:+ resolvedPath in
      if Js.startsWith "/" p then (resolvedPath, true)
      else resolve_loop paths' resolvedPath
end.

Definition resolve (cwd : string) (args : list string) : string :=
let '(resolvedPath, resolvedAbsolute) := resolve_loop (rev args ++ [cwd]) "" in
let resolvedPath := normalizeString resolvedPath (negb resolvedAbsolute) in
if resolvedAbsolute then "/" +:+ resolvedPath
else if 0 <? String.length resolvedPath then resolvedPath else ".".

End Path.

(** ** The data of the scan *)

(** The object that [main] builds for a script piped on standard input. *)
Record blob := Blob { path : string; content : string }.

(** What [scanDeps] is called on: the path of a file, or the object above.
    A [Set] compares strings by value and objects by reference; an invocation
    allocates one such object at most, and never changes it. *)
Inductive entry :=
| File (p : string)
| Mem (b : blob).

Global Instance blob_eq_dec : EqDecision blob.
Proof. solve_decision. Defined.

Global Instance entry_eq_dec : EqDecision entry.
Proof. solve_decision. Defined.

Global Instance entry_countable : Countable entry.
Proof.
  refine (inj_countable'
            (λ e, match e with
                  | File p => inl p
                  | Mem b => inr (path b, content b)
                  end)
            (λ x, match x with
                  | inl p => File p
                  | inr (p, c) => Mem (Blob p c)
                  end) _).
  intros [p|[p c]]; reflexivity.
Defined.

(** The file system, as far as the program looks at it: which paths exist,
    and the text of the files. *)
Inductive fnode :=
| FFile (data : string)
| FDir.

Inductive error :=
| ENOENT (p : string)
| EISDIR (p : string)
| MODULE_NOT_FOUND (request : string)
| TypeError (what : string)
| ENOTDIR (p : string)
| JsError (message : string)
| ChildFailed (code : option Z) (signal : option string)
| SpawnFailed.

(** The result of a computation that may throw; [OutOfFuel] is the answer of
    a bounded recursion that was not given depth enough. *)
Inductive outcome (A : Type) :=
| Ok (a : A)
| Throw (e : error)
| OutOfFuel.
Arguments Ok {A} a.
Arguments Throw {A} e.
Arguments OutOfFuel {A}.

(** The two sets that [main] shares with every call of [scanDeps], and what
    the scan does that can be observed from outside: the entries it warned
    about ([console.warn]) and the files it read ([fs.readFile]), in order. *)
Record scan_state := ScanState {
  deps : list string;
  visited : gset entry;
  warnings : list entry;
  reads : list string
}.

Definition scan_init : scan_state := ScanState [] ∅ [] [].

Definition entry_path (e : entry) : string :=
  match e with
  | File p => p
  | Mem b => path b
  end.

Definition readFile (fs : gmap string fnode) (p : string) : outcome string :=
  match fs !! p with
  | Some (FFile data) => Ok data
  | Some FDir => Throw (EISDIR p)
  | None => Throw (ENOENT p)
  end.

(** The text that line 31 gives for an entry, where there is one. *)
Definition code_of (fs : gmap string fnode) (e : entry) : option string :=
  match e with
  | File p =>
      match fs !! p with
      | Some (FFile data) => Some data
      | _ => None
      end
  | Mem b => Some (content b)
  end.

(** ** [scanDeps] *)

Section Scanner.

(** [module.builtinModules]. *)
Variable builtinModules : list string.
(** The files that [fs.readFile] finds. *)
Variable fs : gmap string fnode.
(** [require.resolve] on an absolute path; [None] where it throws. *)
Variable require_resolve : string → option string.
(** [process.cwd()]. *)
Variable pcwd : string.

(** Lines 42 to 48: the package of an import that is not relative. *)
Definition package_of (dep : string) : string :=
  if Js.startsWith "@" dep
  then Js.join "/" (Js.slice0 2 (Js.split "/" dep))
  else Js.first (Js.split "/" dep).

(** Line 38: what is handed to [require.resolve] for a relative import. *)
Definition subentry_request (e : entry) (dep : string) : string :=
  Path.resolve pcwd [Path.dirname (entry_path e); dep].

(** The body of the loop for one match; [rec] is [scanDeps] itself. *)
Definition scan_import (rec : entry → scan_state → outcome scan_state)
    (e : entry) (st : scan_state) (dep : string) : outcome scan_state :=
  if Js.startsWith "." dep then
    match require_resolve (subentry_request e dep) with
    | Some subentry => rec (File subentry) st
    | None => Throw (MODULE_NOT_FOUND (subentry_request e dep))
    end
  else
    let dep := package_of dep in
    if bool_decide (dep ∈ builtinModules) then Ok st
    else Ok (ScanState (Js.set_add dep (deps st)) (visited st) (warnings st) (reads st)).

(** The loop over the matches of the pattern, in the order of the text. *)
Fixpoint scan_loop (rec : entry → scan_state → outcome scan_state)
    (e : entry) (ms : list string) (st : scan_state) : outcome scan_state :=
  match ms with
  | [] => Ok st
  | dep :: ms' =>
      match scan_import rec e st dep with
      | Ok st' => scan_loop rec e ms' st'
      | Throw err => Throw err
      | OutOfFuel => OutOfFuel
      end
  end.

(** Line 31: the text of the entry. *)
Definition read_code (e : entry) (st : scan_state) : outcome (string * scan_state) :=
  match e with
  | File p =>
      match readFile fs p with
      | Ok code =>
          Ok (code, ScanState (deps st) (visited st) (warnings st) (reads st ++ [p]))
      | Throw err => Throw err
      | OutOfFuel => OutOfFuel
      end
  | Mem b => Ok (content b, st)
  end.

(** [scanDeps(entry, deps, visited)]; [fuel] bounds the depth of the
    recursion. *)
Fixpoint scanDeps (fuel : nat) (e : entry) (st : scan_state) : outcome scan_state :=
  match fuel with
  | 0 => OutOfFuel
  | S fuel' =>
      if bool_decide (e ∈ visited st) then
        Ok (ScanState (deps st) (visited st) (warnings st ++ [e]) (reads st))
      else
        let st := ScanState (deps st) ({[e]} ∪ visited st) (warnings st) (reads st) in
        match read_code e st with
        | Ok (code, st) => scan_loop (scanDeps fuel') e (Re.matches code) st
        | Throw err => Throw err
        | OutOfFuel => OutOfFuel
        end
  end.

(** Depth enough for every scan over [fs] ([scanDeps_total] below). *)
Definition scan_fuel : nat := size (dom fs) + 2.

Definition scan (e : entry) (st : scan_state) : outcome scan_state :=
  scanDeps scan_fuel e st.

End Scanner.

(** ** The steps of a scan *)

Section Steps.
Variable builtinModules : list string.
Variable fs : gmap string fnode.

(** The changes of the shared state that a scan is made of. *)
Inductive scan_step : scan_state → scan_state → Prop :=
| step_warn st e :
    e ∈ visited st →
    scan_step st (ScanState (deps st) (visited st) (warnings st ++ [e]) (reads st))
| step_visit_file st p code :
    File p ∉ visited st → readFile fs p = Ok code →
    scan_step st (ScanState (deps st) ({[File p]} ∪ visited st) (warnings st)
                    (reads st ++ [p]))
| step_visit_mem st b :
    Mem b ∉ visited st →
    scan_step st (ScanState (deps st) ({[Mem b]} ∪ visited st) (warnings st) (reads st))
| step_add st dep :
    Js.startsWith "." dep = false →
    package_of dep ∉ builtinModules →
    scan_step st (ScanState (Js.set_add (package_of dep) (deps st))
                    (visited st) (warnings st) (reads st)).
End Steps.

(** The files read are among the entries visited. *)
Definition reads_visited (st : scan_state) : Prop :=
  ∀ p, p ∈ reads st → File p ∈ visited st.

(** The files of [fs] that are not in a set of visited entries. *)
Definition pending (fs : gmap string fnode) (V : gset entry) : nat :=
  size (filter (λ p, File p ∉ V) (dom fs)).

(** ** The options of the command line *)

Record options := Options {
  cwd : string;
  silent : bool;
  clean : bool;
  help : bool
}.

Section ParseArgs.

Variable pcwd : string.

(** The pattern [/^-\w/]. *)
Definition is_flag (arg : string) : bool :=
  match arg with
  | String "-"%char (String c _) => Js.is_word c
  | _ => false
  end.

(** The inner loop of [parseArgs] over [arg[1]], [arg[2]], ...  The boolean
    of the result tells that the last letter was [C], whose value is the
    next argument. *)
Fixpoint parse_flags (cs : string) (o : options) : outcome (options * bool) :=
  match cs with
  | "" => Ok (o, false)
  | String c cs' =>
      if Ascii.eqb c "s" then parse_flags cs' (Options (cwd o) true (clean o) (help o))
      else if Ascii.eqb c "c" then parse_flags cs' (Options (cwd o) (silent o) true (help o))
      else if Ascii.eqb c "h" then parse_flags cs' (Options (cwd o) (silent o) (clean o) true)
      else if Ascii.eqb c "C" then
        if 0 <? String.length cs' then Throw (JsError "-C requires a value")
        else Ok (o, true)
      else parse_flags cs' o
  end.

(** The outer loop: [rest] is the arguments from the first one that is not
    a bundle of flags. *)
Fixpoint parseArgs_loop (args : list string) (o : options)
  : outcome (options * list string) :=
  match args with
  | [] => Ok (o, [])
  | arg :: args' =>
      if negb (is_flag arg) then Ok (o, args)
      else
        match parse_flags (String.substring 1 (String.length arg - 1) arg) o with
        | Ok (o', false) => parseArgs_loop args' o'
        | Ok (o', true) =>
            match args' with
            | v :: args'' =>
                parseArgs_loop args''
                  (Options (Path.resolve pcwd [v]) (silent o') (clean o') (help o'))
            | [] => Throw (TypeError "paths[0]")
            end
        | Throw err => Throw err
        | OutOfFuel => OutOfFuel
        end
  end.

Definition parseArgs (args : list string) : outcome (options * list string) :=
  parseArgs_loop args (Options "." false false false).

End ParseArgs.

(** ** The world of [main] *)

(** The options that [spawnAsync] hands to [child_process.spawn], with the
    text it writes to the child's standard input ([None]: nothing is
    written). *)
Record spawn_request := SpawnRequest {
  sp_command : string;
  sp_args : list string;
  sp_cwd : option string;
  sp_NODE_PATH : option string;
  sp_silent : bool;
  sp_stdin : option string
}.

(** How a child ends: the event [error], or the event [close] with the exit
    code and the signal, one of which is [null]. *)
Inductive child_exit :=
| ExitError
| ExitClose (code : option Z) (signal : option string).

(** What the program does to the outside, in order. *)
Inductive event :=
| Warn (e : entry)
| Usage
| Mkdir (p : string)
| WriteFile (p : string) (data : string)
| Spawn (req : spawn_request)
| Rm (p : string).

Global Instance spawn_request_eq_dec : EqDecision spawn_request.
Proof. solve_decision. Defined.

Global Instance event_eq_dec : EqDecision event.
Proof. solve_decision. Defined.

Record world := World {
  w_fs : gmap string fnode;
  w_out : list event
}.

(** Computations of [main]: they read and change the world, and may throw. *)
Definition M (A : Type) : Type := world → outcome A * world.

Definition ret {A} (a : A) : M A := λ w, (Ok a, w).

Definition throw {A} (e : error) : M A := λ w, (Throw e, w).

Definition bind {A B} (m : M A) (k : A → M B) : M B :=
  λ w, match m w with
       | (Ok a, w') => k a w'
       | (Throw e, w') => (Throw e, w')
       | (OutOfFuel, w') => (OutOfFuel, w')
       end.

Notation "'let!' x ':=' m 'in' k" := (bind m (λ x, k))
  (at level 10, x pattern, m at level 100, k at level 200, only parsing).

Definition emit (ev : event) : M unit :=
  λ w, (Ok tt, World (w_fs w) (w_out w ++ [ev])).

Definition lift {A} (r : outcome A) : M A := λ w, (r, w).

(** The directories above a normalized absolute path, the root first. *)
Fixpoint ancestors_go (acc s : string) : list string :=
  match s with
  | "" => []
  | String c s' =>
      (if Ascii.eqb c "/" then [if String.length acc =? 0 then "/" else acc] else [])
      ++ ancestors_go (acc +:+ String c "") s'
  end.

Definition ancestors (p : string) : list string := ancestors_go "" p.

(** [truthy] of a string or [null], and of an exit code or [null]. *)
Definition truthy_string (s : option string) : bool :=
  match s with
  | Some s => 0 <? String.length s
  | None => false
  end.

Definition truthy_code (code : option Z) : bool :=
  match code with
  | Some c => negb (c =? 0)%Z
  | None => false
  end.

(** JavaScript truthiness of a string. *)
Definition nonempty (s : string) : bool := 0 <? String.length s.

(** Line 68: the promise of [spawnAsync] is resolved when the child closes
    with an exit code that is not truthy. *)
Definition exit_ok (ex : child_exit) : bool :=
  match ex with
  | ExitError => false
  | ExitClose code _ => negb (truthy_code code)
  end.

(** The three flags of [main]: what this invocation made, and may remove. *)
Record owned := Owned {
  cleanCwd : bool;
  cleanPkg : bool;
  cleanModules : bool
}.

(** The paths removed and the children started, read off what was done. *)
Definition removed (out : list event) : list string :=
  omap (λ ev, match ev with Rm p => Some p | _ => None end) out.

Definition spawned (out : list event) : list spawn_request :=
  omap (λ ev, match ev with Spawn req => Some req | _ => None end) out.

(** A file system in which the directories above every path exist. *)
Definition fs_closed (fs : gmap string fnode) : Prop :=
  map_Forall (λ q _, Forall (λ p, is_Some (fs !! p)) (ancestors q)) fs.

(** ** [spawnAsync], [installDeps], [exists], [readStream] and [main] *)

Section Main.

Variable builtinModules : list string.
Variable require_resolve : string → option string.
Variable pcwd : string.
(** What a child started by [child_process.spawn] does: how it ends, and
    the file system it leaves. *)
Variable child : spawn_request → gmap string fnode → child_exit * gmap string fnode.

(** A path as the operating system reads it: relative to [process.cwd()]. *)
Definition abs (p : string) : string := Path.resolve pcwd [p].

(** [exists(fullpath)]: whether [fs.stat] succeeds. *)
Definition exists_ (fullpath : string) : M bool :=
  λ w, (Ok (bool_decide (is_Some (w_fs w !! abs fullpath))), w).

(** [fs.mkdir(p, { recursive: true })]: the directory and those above it
    that are missing. *)
Fixpoint mkdir_all (qs : list string) (fs : gmap string fnode)
  : outcome (gmap string fnode) :=
  match qs with
  | [] => Ok fs
  | q :: qs' =>
      match fs !! q with
      | None => mkdir_all qs' (<[q := FDir]> fs)
      | Some FDir => mkdir_all qs' fs
      | Some (FFile _) => Throw (ENOTDIR q)
      end
  end.

Definition mkdir (p : string) : M unit :=
  λ w, let w' := World (w_fs w) (w_out w ++ [Mkdir (abs p)]) in
       match mkdir_all (ancestors (abs p) ++ [abs p]) (w_fs w) with
       | Ok fs' => (Ok tt, World fs' (w_out w'))
       | Throw e => (Throw e, w')
       | OutOfFuel => (OutOfFuel, w')
       end.

(** [fs.writeFile(p, data, 'utf8')]: the directory of the file must be
    there. *)
Definition writeFile (p data : string) : M unit :=
  λ w, let w' := World (w_fs w) (w_out w ++ [WriteFile (abs p) data]) in
       match w_fs w !! Path.dirname (abs p), w_fs w !! abs p with
       | Some FDir, (None | Some (FFile _)) =>
           (Ok tt, World (<[abs p := FFile data]> (w_fs w)) (w_out w'))
       | Some FDir, Some FDir => (Throw (EISDIR (abs p)), w')
       | Some (FFile _), _ => (Throw (ENOTDIR (abs p)), w')
       | None, _ => (Throw (ENOENT (abs p)), w')
       end.

(** Whether removing [p] removes [q]: [q] is [p] or is below it. *)
Definition removes (p q : string) : bool :=
  bool_decide (q = p) || bool_decide (p ∈ ancestors q).

(** [fs.rm(p, { force: true, recursive: true })]: [p] and all below it go;
    with [force] a path that is not there is no error. *)
Definition rm (p : string) : M unit :=
  λ w, (Ok tt,
        World (filter (λ kv, removes (abs p) kv.1 = false) (w_fs w))
              (w_out w ++ [Rm (abs p)])).

(** [spawnAsync(command, args, options)]: rejected on the event [error],
    and on [close] with a truthy exit code. *)
Definition spawnAsync (command : string) (args : list string)
    (sp_cwd sp_NODE_PATH : option string) (sp_silent : bool) (stdin : option string)
  : M unit :=
  λ w, let req := SpawnRequest command args sp_cwd sp_NODE_PATH sp_silent
                    (if truthy_string stdin then stdin else None) in
       let '(ex, fs') := child req (w_fs w) in
       let w' := World fs' (w_out w ++ [Spawn req]) in
       match ex with
       | ExitError => (Throw SpawnFailed, w')
       | ExitClose code signal =>
           if truthy_code code then (Throw (ChildFailed code signal), w')
           else (Ok tt, w')
       end.

(** [installDeps(deps, options)]. *)
Definition installDeps (deps : list string) (o : options) : M unit :=
  spawnAsync "npm" (["install"; "--no-save"; "--no-package-lock"] ++ deps)
    (if nonempty (cwd o) then Some (cwd o) else None) None (silent o) None.

(** [readStream(input)]: the chunks, joined. *)
Definition readStream (chunks : list string) : string := Js.join "" chunks.

(** Line 158: the scan, on two fresh sets; what it warned about is
    printed (of a scan that throws, only the error is kept). *)
Definition run_scan (e : entry) : M scan_state :=
  λ w, match scan builtinModules (w_fs w) require_resolve pcwd e scan_init with
       | Ok st => (Ok st, World (w_fs w) (w_out w ++ (Warn <$> warnings st)))
       | Throw err => (Throw err, w)
       | OutOfFuel => (OutOfFuel, w)
       end.

(** Lines 166 and 171. *)
Definition pkgFile (o : options) : string :=
  Path.resolve pcwd [cwd o; "package.json"].

Definition modulesPath (o : options) : string :=
  Path.resolve pcwd [cwd o; "node_modules"].

(** Lines 162 to 165: the working directory is made if it is missing. *)
Definition ensure_cwd (o : options) : M bool :=
  let! there := exists_ (cwd o) in
  if nonempty (cwd o) && negb there
  then let! _ := mkdir (cwd o) in ret true
  else ret false.

(** Lines 166 to 170: an empty manifest is written if there is none. *)
Definition ensure_pkg (o : options) : M bool :=
  let! there := exists_ (pkgFile o) in
  if negb there
  then let! _ := writeFile (pkgFile o) "{}" in ret true
  else ret false.

(** Lines 159 to 174: the three flags remember what was missing. *)
Definition prepare (o : options) : M owned :=
  let! cleanCwd := ensure_cwd o in
  let! cleanPkg := ensure_pkg o in
  let! modules_there := exists_ (modulesPath o) in
  ret (Owned cleanCwd cleanPkg (negb modules_there)).

(** Lines 183 to 188. *)
Definition cleanup (o : options) (fl : owned) : M unit :=
  if clean o then
    let! _ := (if cleanModules fl then rm (modulesPath o) else ret tt) in
    let! _ := (if cleanPkg fl then rm (pkgFile o) else ret tt) in
    if cleanCwd fl then rm (cwd o) else ret tt
  else ret tt.

(** The paths that lines 185 to 187 remove, in that order. *)
Definition cleanup_paths (o : options) (fl : owned) : list string :=
  if clean o then
    (if cleanModules fl then [abs (modulesPath o)] else [])
    ++ (if cleanPkg fl then [abs (pkgFile o)] else [])
    ++ (if cleanCwd fl then [abs (cwd o)] else [])
  else [].

(** Line 176: the runner; the script read from standard input is written
    to its standard input. *)
Definition run_node (o : options) (rest : list string) (e : entry) : M unit :=
  spawnAsync "node" rest None (Some (modulesPath o)) false
    (match e with File _ => None | Mem b => Some (content b) end).

(** Lines 158 to 188, once the entry is known. *)
Definition run_entry (o : options) (rest : list string) (e : entry) : M unit :=
  let! st := run_scan e in
  let! fl := prepare o in
  let! _ := installDeps (deps st) o in
  let! _ := run_node o rest e in
  cleanup o fl.

(** The two children of a run, as [installDeps] and line 176 ask for
    them. *)
Definition install_request (o : options) (deps : list string) : spawn_request :=
  SpawnRequest "npm" (["install"; "--no-save"; "--no-package-lock"] ++ deps)
    (if nonempty (cwd o) then Some (cwd o) else None) None (silent o) None.

Definition run_request (o : options) (rest : list string) (e : entry) : spawn_request :=
  SpawnRequest "node" rest None (Some (modulesPath o)) false
    (match e with
     | File _ => None
     | Mem b => if nonempty (content b) then Some (content b) else None
     end).

(** The ways a run can go: its result, the children it started and the
    paths it removed. *)
Inductive run_cases (o : options) (rest : list string) (e : entry) (w : world)
  : outcome unit → list spawn_request → list string → Prop :=
| run_scan_failed err :
    scan builtinModules (w_fs w) require_resolve pcwd e scan_init = Throw err →
    run_cases o rest e w (Throw err) [] []
| run_prepare_failed st w1 err w2 :
    run_scan e w = (Ok st, w1) →
    prepare o w1 = (Throw err, w2) →
    run_cases o rest e w (Throw err) [] []
| run_install_failed st w1 fl w2 err :
    run_scan e w = (Ok st, w1) →
    prepare o w1 = (Ok fl, w2) →
    exit_ok (child (install_request o (deps st)) (w_fs w2)).1 = false →
    run_cases o rest e w (Throw err) [install_request o (deps st)] []
| run_node_failed st w1 fl w2 fs3 err :
    run_scan e w = (Ok st, w1) →
    prepare o w1 = (Ok fl, w2) →
    exit_ok (child (install_request o (deps st)) (w_fs w2)).1 = true →
    fs3 = (child (install_request o (deps st)) (w_fs w2)).2 →
    exit_ok (child (run_request o rest e) fs3).1 = false →
    run_cases o rest e w (Throw err)
      [install_request o (deps st); run_request o rest e] []
| run_done st w1 fl w2 fs3 :
    run_scan e w = (Ok st, w1) →
    prepare o w1 = (Ok fl, w2) →
    exit_ok (child (install_request o (deps st)) (w_fs w2)).1 = true →
    fs3 = (child (install_request o (deps st)) (w_fs w2)).2 →
    exit_ok (child (run_request o rest e) fs3).1 = true →
    run_cases o rest e w (Ok tt)
      [install_request o (deps st); run_request o rest e] (cleanup_paths o fl).

(** [main()], on [process.argv.slice(2)] and the chunks of standard input. *)
Definition main (argv : list string) (stdin : list string) : M unit :=
  let! (o, rest) := lift (parseArgs pcwd argv) in
  if help o then emit Usage
  else
    match rest with
    | entryFile :: _ =>
        if nonempty entryFile then
          let! e :=
            (if bool_decide (entryFile = "-")
             then ret (Mem (Blob entryFile (readStream stdin)))
             else match require_resolve (Path.resolve pcwd [entryFile]) with
                  | Some p => ret (File p)
                  | None => throw (MODULE_NOT_FOUND (Path.resolve pcwd [entryFile]))
                  end) in
          run_entry o rest e
        else let! _ := emit Usage in throw (JsError "entryFile is required")
    | [] => let! _ := emit Usage in throw (JsError "entryFile is required")
    end.

End Main.

(** ** Notions to state what the pattern finds *)

(** Whether [p] occurs in [s]. *)
Fixpoint occurs (p s : string) : bool :=
  match Re.strip_prefix p s with
  | Some _ => true
  | None =>
      match s with
      | "" => false
      | String _ s' => occurs p s'
      end
  end.

(** Whether no character of [s] is a quote. *)
Fixpoint quote_free (s : string) : bool :=
  match s with
  | "" => true
  | String c s' => negb (Re.is_quote c) && quote_free s'
  end.

(** The character before the position that follows [pre], in a text that has
    [prev] before [pre]. *)
Fixpoint char_before (prev : option ascii) (pre : string) : option ascii :=
  match pre with
  | "" => prev
  | String c pre' => char_before (Some c) pre'
  end.

(** [d] is the package of an import of the unit [u] that is not relative. *)
Definition external_of (fs : gmap string fnode) (u : entry) (d : string) : Prop :=
  ∃ code dep,
    code_of fs u = Some code ∧ dep ∈ Re.matches code
    ∧ Js.startsWith "." dep = false ∧ d = package_of dep.

(** What a scan adds to the two sets, from [s] to [s']: both sets grow, every
    entry that is new in the visited set has a text, and the packages of all
    its imports that are not relative and not built-in are in the set; and
    every package that is new in the set is such a package of a visited
    entry. *)
Definition scan_grows (builtinModules : list string) (fs : gmap string fnode)
    (s s' : scan_state) : Prop :=
  deps s ⊆ deps s' ∧ visited s ⊆ visited s'
  ∧ (∀ u, u ∈ visited s' →
       u ∈ visited s
       ∨ (is_Some (code_of fs u)
          ∧ ∀ d, external_of fs u d → d ∉ builtinModules → d ∈ deps s'))
  ∧ (∀ d, d ∈ deps s' →
       d ∈ deps s
       ∨ (d ∉ builtinModules ∧ (∃ u, u ∈ visited s' ∧ external_of fs u d))).

(** What a scan leaves to be seen: the packages, the warnings and the files
    read. *)
Definition observed (r : outcome scan_state)
  : option (list string * list entry * list string) :=
  match r with
  | Ok st => Some (deps st, warnings st, reads st)
  | _ => None
  end.

(** ** Concrete machines, to run the program on *)

Module Demo.

(** Some of the names in [module.builtinModules] of Node.js. *)
Definition builtins : list string :=
  ["assert"; "buffer"; "child_process"; "crypto"; "events"; "fs"; "fs/promises";
   "http"; "https"; "module"; "net"; "os"; "path"; "stream"; "url"; "util"; "zlib"].

(** [require.resolve] on an absolute path, over a given file system: the
    path itself, then with the extension [.js], then the [index.js] of a
    directory. *)
Definition is_file (fs : gmap string fnode) (p : string) : bool :=
  match fs !! p with
  | Some (FFile _) => true
  | _ => false
  end.

Definition resolve_in (fs : gmap string fnode) (request : string) : option string :=
  if is_file fs request then Some request
  else if is_file fs (request +:+ ".js") then Some (request +:+ ".js")
  else if is_file fs (request +:+ "/index.js") then Some (request +:+ "/index.js")
  else None.

(** A cycle: [a.js] requires [b.js], which requires [a.js]. *)
Definition cycle_fs : gmap string fnode :=
  list_to_map
    [("/", FDir); ("/app", FDir);
     ("/app/a.js", FFile "const b = require('./b');");
     ("/app/b.js", FFile "const a = require('./a');")].

(** A diamond: [main.js] requires [a.js] and [b.js], and both require
    [util.js]. *)
Definition diamond_fs : gmap string fnode :=
  list_to_map
    [("/", FDir); ("/app", FDir);
     ("/app/main.js", FFile "require('./a'); require('./b');");
     ("/app/a.js", FFile "module.exports = require('./util');");
     ("/app/b.js", FFile "module.exports = require('./util');");
     ("/app/util.js", FFile "module.exports = require('left-pad');")].

(** A script with imports of every kind. *)
Definition mixed_fs : gmap string fnode :=
  list_to_map
    [("/", FDir); ("/app", FDir);
     ("/app/main.js",
      FFile "require('fs'); require('@scope/pkg/deep/path'); require('pkg/sub'); require('fs/promises'); require('@scope/pkg/other'); require('')")].

Definition scan_of (fs : gmap string fnode) (e : entry) : outcome scan_state :=
  scan builtins fs (resolve_in fs) "/app" e scan_init.

(** The children.  [npm] leaves a directory [node_modules] in its working
    directory; [npm_exit] is how it ends, and [node] ends with code 0. *)
Definition child (npm_exit : child_exit) (req : spawn_request)
    (fs : gmap string fnode) : child_exit * gmap string fnode :=
  if bool_decide (sp_command req = "npm") then
    (npm_exit,
     match sp_cwd req with
     | Some d => <[Path.resolve "/app" [d; "node_modules"] := FDir]> fs
     | None => fs
     end)
  else (ExitClose (Some 0%Z) None, fs).

(** A machine without the working directory that [-C] names. *)
Definition fresh_fs : gmap string fnode :=
  list_to_map [("/", FDir); ("/app", FDir); ("/tmp", FDir)].

(** A machine in which the working directory, its manifest and its
    [node_modules] are there already. *)
Definition used_fs : gmap string fnode :=
  list_to_map
    [("/", FDir); ("/app", FDir); ("/work", FDir);
     ("/work/package.json", FFile "{ }");
     ("/work/node_modules", FDir);
     ("/app/main.js", FFile "require('left-pad')")].

(** The script of the README, piped on standard input in two chunks. *)
Definition piped : list string := ["require(" +:+ Re.dq +:+ "left"; "-pad" +:+ Re.dq +:+ ")"].

Definition main_of (npm_exit : child_exit) (fs : gmap string fnode)
    (argv stdin : list string) : outcome unit * world :=
  main builtins (resolve_in fs) "/app" (child npm_exit) argv stdin (World fs []).

Definition run_of (npm_exit : child_exit) (fs : gmap string fnode)
    (o : options) (rest : list string) (e : entry) : outcome unit * world :=
  run_entry builtins (resolve_in fs) "/app" (child npm_exit) o rest e (World fs []).

(** The options of [-c -C /tmp/run], and the entry of the piped script. *)
Definition clean_tmp : options := Options "/tmp/run" false true false.

Definition piped_entry : entry :=
  Mem (Blob "-" ("require(" +:+ Re.dq +:+ "left-pad" +:+ Re.dq +:+ ")")).

(** Ways for [npm] to end. *)
Definition exit0 : child_exit := ExitClose (Some 0%Z) None.
Definition exit1 : child_exit := ExitClose (Some 1%Z) None.
Definition killed : child_exit := ExitClose None (Some "SIGKILL").

End Demo.

(** * Properties

    ** The pattern *)









(** ** Strings and paths *)

Lemma app_cons_s x (a b : string) : String x a +:+ b = String x (a +:+ b).
Proof. reflexivity. Qed.

Lemma app_assoc_s (a b c : string) : (a +:+ b) +:+ c = a +:+ (b +:+ c).
Proof. induction a as [|x a IH]; [done|]. by rewrite !app_cons_s, IH. Qed.

Section Split.
Variable sep : ascii.

Lemma split_nonempty s : Js.split sep s ≠ [].
Proof.
  destruct s as [|c s]; simpl; [done|].
  destruct (Ascii.eqb c sep); [done|]. by destruct (Js.split sep s).
Qed.






End Split.



(** *** Paths *)




Lemma absolute_nonempty p : Js.startsWith "/" p = true → (String.length p =? 0) = false.
Proof. by destruct p. Qed.


(** ** The scan *)

Lemma set_add_elem x y (s : list string) : x ∈ Js.set_add y s ↔ x = y ∨ x ∈ s.
Proof.
  unfold Js.set_add. case_bool_decide; [set_solver|].
  rewrite elem_of_app, list_elem_of_singleton. tauto.
Qed.

Section StepFacts.
Variable builtinModules : list string.
Variable fs : gmap string fnode.

Local Abbreviation steps := (rtc (scan_step builtinModules fs)).
Local Abbreviation pending := (pending fs).

(** What every step keeps. *)
Lemma steps_visited st st' : steps st st' → visited st ⊆ visited st'.
Proof. induction 1 as [|??? Hs]; [done|]. inversion Hs; subst; set_solver. Qed.



Lemma steps_package st st' :
  steps st st' → ∀ d, d ∈ deps st' →
  d ∈ deps st ∨ ∃ dep, Js.startsWith "." dep = false ∧ d = package_of dep.
Proof.
  induction 1 as [|??? Hs ? IH]; [auto|]. intros d Hd.
  destruct (IH d Hd) as [Hy|?]; [|auto].
  inversion Hs; subst; simpl in *; auto.
  apply set_add_elem in Hy as [->|?]; eauto.
Qed.

Lemma steps_reads st st' :
  steps st st' → reads_visited st ∧ NoDup (reads st) →
  reads_visited st' ∧ NoDup (reads st').
Proof.
  induction 1 as [|??? Hs ? IH]; [done|]. intros [Hrv Hn]. apply IH.
  inversion Hs; subst; simpl; split; try done.
  - intros q Hq. simpl in *. apply elem_of_app in Hq as [Hq|Hq].
    + apply Hrv in Hq. set_solver.
    + apply list_elem_of_singleton in Hq as ->. set_solver.
  - apply NoDup_app. split_and!; [done| |apply NoDup_singleton].
    intros q Hq ->%list_elem_of_singleton. by apply Hrv in Hq.
  - intros q Hq. apply Hrv in Hq. set_solver.
Qed.

Lemma pending_mono V V' : V ⊆ V' → pending V' ≤ pending V.
Proof. intros HV. unfold pending. apply subseteq_size. set_solver. Qed.

Lemma pending_visit p V :
  File p ∉ V → p ∈ dom fs → pending ({[File p]} ∪ V) < pending V.
Proof.
  intros Hp Hd. unfold pending. apply subset_size. split.
  - intros q. rewrite !elem_of_filter. set_solver.
  - intros Hsub. specialize (Hsub p). rewrite !elem_of_filter in Hsub. set_solver.
Qed.

Lemma pending_le V : pending V ≤ size (dom fs).
Proof. unfold pending. apply subseteq_size. set_solver. Qed.

Lemma readFile_dom p code : readFile fs p = Ok code → p ∈ dom fs.
Proof.
  unfold readFile. destruct (fs !! p) as [[]|] eqn:Hp; [|done..].
  intros _. apply elem_of_dom. eauto.
Qed.

End StepFacts.

Section ScannerFacts.
Variable builtinModules : list string.
Variable fs : gmap string fnode.
Variable require_resolve : string → option string.
Variable pcwd : string.

Local Abbreviation scanDeps := (scanDeps builtinModules fs require_resolve pcwd).
Local Abbreviation scan_loop := (scan_loop builtinModules require_resolve pcwd).
Local Abbreviation scan_import := (scan_import builtinModules require_resolve pcwd).
Local Abbreviation scan := (scan builtinModules fs require_resolve pcwd).
Local Abbreviation steps := (rtc (scan_step builtinModules fs)).
Local Abbreviation pending := (pending fs).

Lemma scan_loop_ind (P : scan_state → scan_state → Prop)
    (rec : entry → scan_state → outcome scan_state) e :
  (∀ st, P st st) →
  (∀ st1 st2 st3, P st1 st2 → P st2 st3 → P st1 st3) →
  (∀ e' st st', rec e' st = Ok st' → P st st') →
  (∀ st dep, Js.startsWith "." dep = false → package_of dep ∉ builtinModules →
     P st (ScanState (Js.set_add (package_of dep) (deps st))
             (visited st) (warnings st) (reads st))) →
  ∀ ms st st', scan_loop rec e ms st = Ok st' → P st st'.
Proof.
  intros Hrefl Htrans Hrec Hadd ms.
  induction ms as [|dep ms IH]; intros st st'; simpl.
  - intros [= <-]. apply Hrefl.
  - destruct (scan_import rec e st dep) as [st1| |] eqn:Hi; try done.
    intros Hl. apply Htrans with st1; [|by apply IH].
    unfold scan_import in Hi.
    destruct (Js.startsWith "." dep) eqn:Hrel.
    + destruct (require_resolve _); [|done]. by apply Hrec in Hi.
    + case_bool_decide as Hb; simplify_eq; [apply Hrefl | by apply Hadd].
Qed.

Lemma scanDeps_steps fuel e st st' : scanDeps fuel e st = Ok st' → steps st st'.
Proof.
  revert e st st'. induction fuel as [|fuel IH]; intros e st st'; [done|].
  simpl. case_bool_decide as Hv.
  { intros [= <-]. apply rtc_once. by constructor. }
  destruct (read_code fs e _) as [[code st2]| |] eqn:Hr; try done.
  intros Hl. apply rtc_l with st2.
  - destruct e as [p|b]; simpl in Hr.
    + destruct (readFile fs p) as [c| |] eqn:Hf; simplify_eq.
      by apply (step_visit_file _ _ st p code).
    + simplify_eq. by apply (step_visit_mem _ _ st b).
  - eapply (scan_loop_ind (λ a b, steps a b)); [| | | |exact Hl].
    + done.
    + intros ??? H1 H2. by etrans.
    + intros ???. apply IH.
    + intros ????. apply rtc_once. by constructor.
Qed.

(** *** Termination: the files not visited yet bound the depth *)

Lemma scan_loop_fuel (rec : entry → scan_state → outcome scan_state) e n :
  (∀ p st, pending (visited st) < n → rec (File p) st ≠ OutOfFuel) →
  (∀ e' st st', rec e' st = Ok st' → visited st ⊆ visited st') →
  ∀ ms st, pending (visited st) < n → scan_loop rec e ms st ≠ OutOfFuel.
Proof.
  intros Hrec Hmono ms. induction ms as [|dep ms IH]; intros st Hn; [done|].
  simpl. destruct (scan_import rec e st dep) as [st1| |] eqn:Hi; [|done|].
  - apply IH. unfold scan_import in Hi.
    destruct (Js.startsWith "." dep); [|by case_bool_decide; simplify_eq].
    destruct (require_resolve _); [|done].
    apply Hmono, (pending_mono fs) in Hi. lia.
  - unfold scan_import in Hi.
    destruct (Js.startsWith "." dep); [|by case_bool_decide].
    destruct (require_resolve _); [|done]. by apply Hrec in Hi.
Qed.

Lemma scanDeps_fuel fuel e st :
  pending (visited st) + (if e is File _ then 0 else 1) < fuel →
  scanDeps fuel e st ≠ OutOfFuel.
Proof.
  revert e st. induction fuel as [|fuel IH]; intros e st Hn; [lia|].
  simpl. case_bool_decide as Hv; [done|].
  destruct (read_code fs e _) as [[code st2]| |] eqn:Hr; [|done|].
  - apply scan_loop_fuel with fuel.
    + intros p st0 ?. apply IH. lia.
    + intros e' st0 st0' H0. apply (steps_visited builtinModules fs).
      by apply scanDeps_steps with fuel e'.
    + destruct e as [p|b]; simpl in Hr.
      * destruct (readFile fs p) eqn:Hf; simplify_eq. simpl.
        apply readFile_dom in Hf. pose proof (pending_visit fs p (visited st) Hv Hf). lia.
      * simplify_eq. simpl.
        assert (pending ({[Mem b]} ∪ visited st) ≤ pending (visited st)) as Hm
          by (apply (pending_mono fs); set_solver).
        lia.
  - destruct e as [p|b]; simpl in Hr; [|done].
    unfold readFile in Hr. by destruct (fs !! p) as [[]|].
Qed.

(** More fuel never changes an answer. *)
Lemma scan_loop_more (rec1 rec2 : entry → scan_state → outcome scan_state) e :
  (∀ e' st r, rec1 e' st = r → r ≠ OutOfFuel → rec2 e' st = r) →
  ∀ ms st r, scan_loop rec1 e ms st = r → r ≠ OutOfFuel → scan_loop rec2 e ms st = r.
Proof.
  intros Hrec ms. induction ms as [|dep ms IH]; intros st r; simpl; [done|].
  destruct (scan_import rec1 e st dep) as [st1| |] eqn:Hi.
  - intros Hl Hr. assert (scan_import rec2 e st dep = Ok st1) as ->; [|by apply IH].
    unfold scan_import in *.
    destruct (Js.startsWith "." dep); [|done].
    destruct (require_resolve _); [|done]. by apply Hrec.
  - intros <- _. assert (scan_import rec2 e st dep = Throw e0) as ->; [|done].
    unfold scan_import in *.
    destruct (Js.startsWith "." dep); [|by case_bool_decide].
    destruct (require_resolve _); [|done]. by apply Hrec.
  - by intros <- ?.
Qed.

Lemma scanDeps_S fuel e st r :
  scanDeps fuel e st = r → r ≠ OutOfFuel → scanDeps (S fuel) e st = r.
Proof.
  revert e st r. induction fuel as [|fuel IH]; intros e st r; [by intros <- ?|].
  intros H Hr. simpl in H. change (scanDeps (S (S fuel)) e st)
    with (if bool_decide (e ∈ visited st)
          then Ok (ScanState (deps st) (visited st) (warnings st ++ [e]) (reads st))
          else match read_code fs e (ScanState (deps st) ({[e]} ∪ visited st) (warnings st) (reads st)) with
               | Ok (code, st0) => scan_loop (scanDeps (S fuel)) e (Re.matches code) st0
               | Throw err => Throw err
               | OutOfFuel => OutOfFuel
               end).
  case_bool_decide; [done|].
  destruct (read_code fs e _) as [[code st2]| |]; [|done..].
  eapply scan_loop_more; [|exact H|exact Hr]. intros ???. apply IH.
Qed.

Lemma scanDeps_more n k e st r :
  scanDeps n e st = r → r ≠ OutOfFuel → n ≤ k → scanDeps k e st = r.
Proof.
  intros H Hr Hle. induction Hle as [|k _ IH]; [done|]. by apply scanDeps_S.
Qed.

Lemma scanDeps_total e st :
  scan e st ≠ OutOfFuel ∧ ∀ fuel, scan_fuel fs ≤ fuel → scanDeps fuel e st = scan e st.
Proof.
  assert (scan e st ≠ OutOfFuel) as Hs.
  { apply scanDeps_fuel. unfold scan_fuel.
    pose proof (pending_le fs (visited st)). destruct e; lia. }
  split; [done|]. intros fuel Hf. by apply scanDeps_more with (scan_fuel fs).
Qed.

(** *** One call, unfolded *)

Lemma scanDeps_revisit fuel e st :
  e ∈ visited st →
  scanDeps (S fuel) e st
  = Ok (ScanState (deps st) (visited st) (warnings st ++ [e]) (reads st)).
Proof. intros Hv. simpl. by rewrite bool_decide_eq_true_2. Qed.

Lemma scanDeps_first fuel e st code :
  e ∉ visited st → code_of fs e = Some code →
  scanDeps (S fuel) e st
  = scan_loop (scanDeps fuel) e (Re.matches code)
      (ScanState (deps st) ({[e]} ∪ visited st) (warnings st)
         (reads st ++ (if e is File p then [p] else []))).
Proof.
  intros Hv Hc. simpl. rewrite bool_decide_eq_false_2 by done.
  destruct e as [p|b]; simpl in *.
  - unfold readFile. destruct (fs !! p) as [[]|]; by simplify_eq.
  - simplify_eq. by rewrite app_nil_r.
Qed.

Lemma scan_loop_cons rec e dep ms st :
  scan_loop rec e (dep :: ms) st
  = match scan_import rec e st dep with
    | Ok st' => scan_loop rec e ms st'
    | Throw err => Throw err
    | OutOfFuel => OutOfFuel
    end.
Proof. reflexivity. Qed.

Lemma scan_loop_nil rec e st : scan_loop rec e [] st = Ok st.
Proof. reflexivity. Qed.

Lemma scan_import_relative rec e st dep sub :
  Js.startsWith "." dep = true →
  require_resolve (subentry_request pcwd e dep) = Some sub →
  scan_import rec e st dep = rec (File sub) st.
Proof. intros Hd Hr. unfold scan_import. by rewrite Hd, Hr. Qed.

(** A text without relative imports: the walk stays in the unit. *)
Lemma scan_loop_leaf rec e ms st :
  Forall (λ dep, Js.startsWith "." dep = false) ms →
  ∃ ds, scan_loop rec e ms st
        = Ok (ScanState ds (visited st) (warnings st) (reads st)).
Proof.
  intros Hms. revert st. induction Hms as [|dep ms Hd _ IH]; intros st.
  - exists (deps st). by destruct st.
  - simpl. unfold scan_import. rewrite Hd.
    case_bool_decide; [apply IH|].
    destruct (IH (ScanState (Js.set_add (package_of dep) (deps st)) (visited st)
                    (warnings st) (reads st))) as [ds Hds].
    by exists ds.
Qed.




End ScannerFacts.

(** ** The orchestrator *)

Lemma removed_app a b : removed (a ++ b) = removed a ++ removed b.
Proof. apply omap_app. Qed.

Lemma spawned_app a b : spawned (a ++ b) = spawned a ++ spawned b.
Proof. apply omap_app. Qed.

Lemma removed_warn l : removed (Warn <$> l) = [].
Proof. by induction l. Qed.

Lemma spawned_warn l : spawned (Warn <$> l) = [].
Proof. by induction l. Qed.

Section MainFacts.
Variable builtinModules : list string.
Variable require_resolve : string → option string.
Variable pcwd : string.
Variable child : spawn_request → gmap string fnode → child_exit * gmap string fnode.

Local Abbreviation scan := (scan builtinModules).
Local Abbreviation run_scan := (run_scan builtinModules require_resolve pcwd).
Local Abbreviation abs := (abs pcwd).
Local Abbreviation prepare := (prepare pcwd).
Local Abbreviation cleanup := (cleanup pcwd).
Local Abbreviation cleanup_paths := (cleanup_paths pcwd).
Local Abbreviation pkgFile := (pkgFile pcwd).
Local Abbreviation modulesPath := (modulesPath pcwd).
Local Abbreviation spawnAsync := (spawnAsync child).
Local Abbreviation installDeps := (installDeps child).
Local Abbreviation run_node := (run_node pcwd child).
Local Abbreviation run_request := (run_request pcwd).
Local Abbreviation run_entry := (run_entry builtinModules require_resolve pcwd child).
Local Abbreviation run_cases := (run_cases builtinModules require_resolve pcwd child).
Local Abbreviation main := (main builtinModules require_resolve pcwd child).

Lemma run_scan_inv e w r w' :
  run_scan e w = (r, w') →
  w_fs w' = w_fs w ∧ removed (w_out w') = removed (w_out w)
  ∧ spawned (w_out w') = spawned (w_out w)
  ∧ scan (w_fs w) require_resolve pcwd e scan_init = r ∧ r ≠ OutOfFuel.
Proof.
  unfold run_scan.
  pose proof (scanDeps_total builtinModules (w_fs w) require_resolve pcwd e scan_init) as [Hn _].
  destruct (scan _ _ _ _ _) as [st| |]; [| |done]; intros [= <- <-]; simpl.
  - by rewrite removed_app, spawned_app, removed_warn, spawned_warn, !app_nil_r.
  - done.
Qed.

Lemma mkdir_all_absent qs fs fs' :
  mkdir_all qs fs = Ok fs' → ∀ p, fs' !! p = None → fs !! p = None.
Proof.
  revert fs. induction qs as [|q qs IH]; intros fs; simpl; [by intros [= <-]|].
  destruct (fs !! q) as [[]|] eqn:Hq; [done|by apply IH|].
  intros H p Hp. apply (IH _ H) in Hp.
  apply lookup_insert_None in Hp as [? _]. done.
Qed.

Lemma mkdir_all_total qs fs : mkdir_all qs fs ≠ OutOfFuel.
Proof.
  revert fs. induction qs as [|q qs IH]; intros fs; simpl; [done|].
  by destruct (fs !! q) as [[]|].
Qed.

Lemma ensure_cwd_inv o w r w' :
  ensure_cwd pcwd o w = (r, w') →
  removed (w_out w') = removed (w_out w)
  ∧ spawned (w_out w') = spawned (w_out w)
  ∧ r ≠ OutOfFuel
  ∧ (∀ p, w_fs w' !! p = None → w_fs w !! p = None)
  ∧ (r = Ok true → w_fs w !! abs (cwd o) = None).
Proof.
  unfold ensure_cwd, bind, exists_, ret.
  destruct (nonempty (cwd o) && negb _) eqn:Hc.
  - unfold mkdir.
    pose proof (mkdir_all_total (ancestors (abs (cwd o)) ++ [abs (cwd o)]) (w_fs w)).
    destruct (mkdir_all _ (w_fs w)) as [fs'| |] eqn:Hm; [| |done];
      intros [= <- <-]; simpl;
      rewrite removed_app, spawned_app, !app_nil_r; split_and!; try done.
    + by apply mkdir_all_absent with (1 := Hm).
    + intros _. apply andb_true_iff in Hc as [_ Hc].
      apply negb_true_iff, bool_decide_eq_false in Hc.
      by apply eq_None_not_Some.
  - by intros [= <- <-].
Qed.

Lemma ensure_pkg_inv o w r w' :
  ensure_pkg pcwd o w = (r, w') →
  removed (w_out w') = removed (w_out w)
  ∧ spawned (w_out w') = spawned (w_out w)
  ∧ r ≠ OutOfFuel
  ∧ (∀ p, w_fs w' !! p = None → w_fs w !! p = None)
  ∧ (r = Ok true → w_fs w !! abs (pkgFile o) = None).
Proof.
  unfold ensure_pkg, bind, exists_, ret.
  destruct (negb _) eqn:Hk.
  - apply negb_true_iff, bool_decide_eq_false in Hk.
    apply eq_None_not_Some in Hk. unfold writeFile. rewrite Hk.
    destruct (w_fs w !! Path.dirname (abs (pkgFile o))) as [[]|];
      intros [= <- <-]; simpl;
      rewrite removed_app, spawned_app, !app_nil_r; split_and!; try done.
    intros p Hp. by apply lookup_insert_None in Hp as [? _].
  - by intros [= <- <-].
Qed.

(** What [prepare] does: nothing is removed and no child is started, no
    path disappears, and a flag is set only for a path that was not
    there. *)
Lemma prepare_inv o w r w' :
  prepare o w = (r, w') →
  removed (w_out w') = removed (w_out w)
  ∧ spawned (w_out w') = spawned (w_out w)
  ∧ r ≠ OutOfFuel
  ∧ (∀ p, w_fs w' !! p = None → w_fs w !! p = None)
  ∧ ∀ fl, r = Ok fl →
      (cleanCwd fl = true → w_fs w !! abs (cwd o) = None)
      ∧ (cleanPkg fl = true → w_fs w !! abs (pkgFile o) = None)
      ∧ (cleanModules fl = true → w_fs w !! abs (modulesPath o) = None).
Proof.
  unfold prepare, bind.
  destruct (ensure_cwd pcwd o w) as [r1 w1] eqn:H1.
  apply ensure_cwd_inv in H1 as (Hr1 & Hs1 & Hn1 & Hm1 & Hf1).
  destruct r1 as [f1| |]; [| |done].
  2:{ by intros [= <- <-]. }
  destruct (ensure_pkg pcwd o w1) as [r2 w2] eqn:H2.
  apply ensure_pkg_inv in H2 as (Hr2 & Hs2 & Hn2 & Hm2 & Hf2).
  destruct r2 as [f2| |]; [| |done].
  2:{ intros [= <- <-]. split_and!; try done; [congruence..|eauto]. }
  unfold exists_, ret. intros [= <- <-]. split_and!; try congruence; [eauto|].
  intros fl [= <-]. simpl. split_and!.
  - intros ->. by apply Hf1.
  - intros ->. by apply Hm1, Hf2.
  - intros Hm. apply negb_true_iff, bool_decide_eq_false in Hm.
    apply eq_None_not_Some in Hm. by apply Hm1, Hm2.
Qed.

Lemma spawnAsync_inv command args c np si stdin req w r w' :
  req = SpawnRequest command args c np si
          (if truthy_string stdin then stdin else None) →
  spawnAsync command args c np si stdin w = (r, w') →
  removed (w_out w') = removed (w_out w)
  ∧ spawned (w_out w') = spawned (w_out w) ++ [req]
  ∧ w_fs w' = (child req (w_fs w)).2
  ∧ (if exit_ok (child req (w_fs w)).1 then r = Ok tt else ∃ err, r = Throw err).
Proof.
  intros ->. unfold spawnAsync. cbv zeta.
  destruct (child _ (w_fs w)) as [ex fs'] eqn:Hc. simpl.
  destruct ex as [|code signal]; simpl.
  - intros [= <- <-]. simpl. rewrite removed_app, spawned_app, app_nil_r. eauto.
  - destruct (truthy_code code); intros [= <- <-]; simpl;
      rewrite removed_app, spawned_app, app_nil_r; eauto.
Qed.

Lemma cleanup_inv o fl w r w' :
  cleanup o fl w = (r, w') →
  r = Ok tt ∧ spawned (w_out w') = spawned (w_out w)
  ∧ removed (w_out w') = removed (w_out w) ++ cleanup_paths o fl.
Proof.
  unfold cleanup, cleanup_paths, bind, rm, ret.
  destruct (clean o), (cleanModules fl), (cleanPkg fl), (cleanCwd fl);
    intros [= <- <-]; simpl;
    rewrite ?removed_app, ?spawned_app, ?app_nil_r, <- ?(assoc_L (++)); done.
Qed.

Lemma run_request_eq o rest e :
  let stdin := match e with File _ => None | Mem b => Some (content b) end in
  SpawnRequest "node" rest None (Some (modulesPath o)) false
    (if truthy_string stdin then stdin else None)
  = run_request o rest e.
Proof. by destruct e. Qed.

(** Every run is one of the five cases. *)
Lemma run_entry_cases o rest e w r w' :
  run_entry o rest e w = (r, w') →
  ∃ sp rmv,
    run_cases o rest e w r sp rmv
    ∧ spawned (w_out w') = spawned (w_out w) ++ sp
    ∧ removed (w_out w') = removed (w_out w) ++ rmv.
Proof.
  unfold run_entry, bind.
  destruct (run_scan e w) as [r1 w1] eqn:H1.
  pose proof (run_scan_inv _ _ _ _ H1) as (Hfs1 & Hr1 & Hs1 & Hsc & Hn1).
  destruct r1 as [st| |]; [| |done].
  2:{ intros [= <- <-]. exists [], []. rewrite !app_nil_r.
      split_and!; [by apply run_scan_failed|done..]. }
  destruct (prepare o w1) as [r2 w2] eqn:H2.
  pose proof (prepare_inv _ _ _ _ H2) as (Hr2 & Hs2 & Hn2 & _).
  destruct r2 as [fl| |]; [| |done].
  2:{ intros [= <- <-]. exists [], []. rewrite !app_nil_r.
      split_and!; [eapply run_prepare_failed; eauto|congruence..]. }
  destruct (installDeps (deps st) o w2) as [r3 w3] eqn:H3.
  unfold installDeps in H3.
  apply (spawnAsync_inv _ _ _ _ _ _ (install_request o (deps st)))
    in H3 as (Hr3 & Hs3 & Hfs3 & Hex3); [|done].
  destruct (exit_ok (child (install_request o (deps st)) (w_fs w2)).1) eqn:Hi.
  2:{ destruct Hex3 as [err ->]. intros [= <- <-].
      exists [install_request o (deps st)], []. rewrite !app_nil_r.
      split_and!; [eapply run_install_failed; eauto|congruence..]. }
  subst r3.
  destruct (run_node o rest e w3) as [r4 w4] eqn:H4.
  unfold run_node in H4.
  apply (spawnAsync_inv _ _ _ _ _ _ (run_request o rest e))
    in H4 as (Hr4 & Hs4 & Hfs4 & Hex4); [|by rewrite <- run_request_eq].
  rewrite Hfs3 in Hex4.
  destruct (exit_ok (child (run_request o rest e) _).1) eqn:Hn.
  2:{ destruct Hex4 as [err ->]. intros [= <- <-].
      exists [install_request o (deps st); run_request o rest e], [].
      rewrite !app_nil_r.
      split_and!; [by eapply run_node_failed; [done|done|done|reflexivity|]|by rewrite Hs4, Hs3, Hs2, Hs1, <- (assoc_L (++))|congruence]. }
  subst r4. intros (-> & Hs5 & Hr5)%cleanup_inv.
  exists [install_request o (deps st); run_request o rest e], (cleanup_paths o fl).
  split_and!; [by eapply run_done; [done|done|done|reflexivity|]| |].
  - by rewrite Hs5, Hs4, Hs3, Hs2, Hs1, <- (assoc_L (++)).
  - rewrite Hr5. congruence.
Qed.

(** The children of a run: the installer, on the packages of the scan, and
    then the runner. *)
Lemma run_cases_spawned o rest e w r sp rmv req :
  run_cases o rest e w r sp rmv → req ∈ sp →
  (∃ st, scan (w_fs w) require_resolve pcwd e scan_init = Ok st
         ∧ req = install_request o (deps st))
  ∨ req = run_request o rest e.
Proof.
  intros Hc Hin.
  assert (∀ st w1, run_scan e w = (Ok st, w1) →
                   scan (w_fs w) require_resolve pcwd e scan_init = Ok st) as Hscan.
  { intros st w1 H1. by apply run_scan_inv in H1 as (_ & _ & _ & ? & _). }
  destruct Hc as [err ?|st w1 err w2 H1 ?|st w1 fl w2 err H1 ? ?
                 |st w1 fl w2 fs3 err H1 ? ? ? ?|st w1 fl w2 fs3 H1 ? ? ? ?].
  - by apply elem_of_nil in Hin.
  - by apply elem_of_nil in Hin.
  - apply list_elem_of_singleton in Hin as ->. left. eauto.
  - apply elem_of_cons in Hin as [->|Hin]; [left; eauto|].
    apply list_elem_of_singleton in Hin as ->. by right.
  - apply elem_of_cons in Hin as [->|Hin]; [left; eauto|].
    apply list_elem_of_singleton in Hin as ->. by right.
Qed.

(** A run that succeeds went through all of it. *)
Lemma run_cases_ok o rest e w sp rmv :
  run_cases o rest e w (Ok tt) sp rmv →
  ∃ st w1 fl w2,
    run_scan e w = (Ok st, w1) ∧ prepare o w1 = (Ok fl, w2)
    ∧ exit_ok (child (install_request o (deps st)) (w_fs w2)).1 = true
    ∧ exit_ok (child (run_request o rest e)
                 (child (install_request o (deps st)) (w_fs w2)).2).1 = true
    ∧ sp = [install_request o (deps st); run_request o rest e]
    ∧ rmv = cleanup_paths o fl.
Proof.
  inversion 1 as [| | | |st w1 fl w2 fs3 H1 H2 H3 H4 H5]; subst.
  by exists st, w1, fl, w2.
Qed.

(** A run that fails removes nothing. *)
Lemma run_cases_failed o rest e w r sp rmv :
  run_cases o rest e w r sp rmv → r ≠ Ok tt → rmv = [].
Proof. by inversion 1. Qed.

(** An installer that does not end with exit code zero, or [null]: the run
    fails and the runner is not started. *)
Lemma run_cases_install_failed o rest e w r sp rmv st w1 fl w2 :
  run_cases o rest e w r sp rmv →
  run_scan e w = (Ok st, w1) → prepare o w1 = (Ok fl, w2) →
  exit_ok (child (install_request o (deps st)) (w_fs w2)).1 = false →
  (∃ err, r = Throw err) ∧ sp = [install_request o (deps st)] ∧ rmv = [].
Proof.
  intros Hc H1 H2 Hex.
  pose proof H1 as Hs. apply run_scan_inv in Hs as (_ & _ & _ & Hs & _).
  destruct Hc as [err Hs'|st' w1' err w2' H1' H2'|st' w1' fl' w2' err H1' H2' ?
                 |st' w1' fl' w2' fs3 err H1' H2' Hex' ? ?
                 |st' w1' fl' w2' fs3 H1' H2' Hex' ? ?];
    try (rewrite H1 in H1'; simplify_eq; rewrite H2 in H2'; simplify_eq).
  - congruence.
  - eauto.
  - congruence.
  - congruence.
Qed.

Lemma cleanup_paths_elem o fl p :
  p ∈ cleanup_paths o fl →
  clean o = true
  ∧ ((p = abs (modulesPath o) ∧ cleanModules fl = true)
     ∨ (p = abs (pkgFile o) ∧ cleanPkg fl = true)
     ∨ (p = abs (cwd o) ∧ cleanCwd fl = true)).
Proof.
  unfold cleanup_paths. destruct (clean o); [|by intros ?%elem_of_nil].
  intros Hp. split; [done|].
  apply elem_of_app in Hp as [Hp|Hp]; [|apply elem_of_app in Hp as [Hp|Hp]].
  - destruct (cleanModules fl); [|by apply elem_of_nil in Hp].
    apply list_elem_of_singleton in Hp. auto.
  - destruct (cleanPkg fl); [|by apply elem_of_nil in Hp].
    apply list_elem_of_singleton in Hp. auto.
  - destruct (cleanCwd fl); [|by apply elem_of_nil in Hp].
    apply list_elem_of_singleton in Hp. auto.
Qed.

(** A script on standard input: the entry of the run is the object that
    holds what was read. *)
Lemma main_stdin argv o rest stdin w :
  parseArgs pcwd argv = Ok (o, "-" :: rest) → help o = false →
  main argv stdin w
  = run_entry o ("-" :: rest) (Mem (Blob "-" (readStream stdin))) w.
Proof. intros Hp Hh. unfold main, bind, lift. by rewrite Hp, Hh. Qed.

(** [main] either stops before the scan, and then starts no child and
    removes nothing, or is a run on the parsed options. *)
Lemma main_cases argv stdin w r w' :
  main argv stdin w = (r, w') →
  (spawned (w_out w') = spawned (w_out w) ∧ removed (w_out w') = removed (w_out w)
   ∧ w_fs w' = w_fs w)
  ∨ ∃ o rest e,
      parseArgs pcwd argv = Ok (o, rest) ∧ help o = false
      ∧ run_entry o rest e w = (r, w').
Proof.
  unfold main, bind, lift.
  destruct (parseArgs pcwd argv) as [[o rest]| |] eqn:Hp;
    [|intros [= <- <-]; by left..].
  destruct (help o) eqn:Hh.
  { unfold emit. intros [= <- <-]. left. simpl.
    by rewrite removed_app, spawned_app, !app_nil_r. }
  destruct rest as [|entryFile rest].
  { unfold emit, throw. intros [= <- <-]. left. simpl.
    by rewrite removed_app, spawned_app, !app_nil_r. }
  destruct (nonempty entryFile).
  2:{ unfold emit, throw. intros [= <- <-]. left. simpl.
      by rewrite removed_app, spawned_app, !app_nil_r. }
  case_bool_decide.
  - unfold ret. intros Hrun. right. by eexists o, (entryFile :: rest), _.
  - destruct (require_resolve _) as [p|].
    + unfold ret. intros Hrun. right. by eexists o, (entryFile :: rest), _.
    + unfold throw. intros [= <- <-]. by left.
Qed.

End MainFacts.

(** ** The program on small inputs *)

Example split_scoped :
  Js.split "/" "@scope/pkg/deep/path" = ["@scope"; "pkg"; "deep"; "path"].
Proof. reflexivity. Qed.

Example split_trailing : Js.split "/" "pkg/" = ["pkg"; ""].
Proof. reflexivity. Qed.

(** A word before [require], or a closing quote that is not the opening one,
    and there is no match. *)
Example matches_two :
  Re.matches ("const a = require('fs'), b = require(" +:+ Re.dq +:+ "./x" +:+ Re.dq
              +:+ "); xrequire('no'); require('bad" +:+ Re.dq +:+ ")")
  = ["fs"; "./x"].
Proof. vm_compute. reflexivity. Qed.

Example dirname_file : Path.dirname "/home/u/app/main.js" = "/home/u/app".
Proof. vm_compute. reflexivity. Qed.

Example dirname_stdin : Path.dirname "-" = ".".
Proof. reflexivity. Qed.

Example resolve_relative :
  Path.resolve "/home/u" ["/home/u/app"; "../lib/./util"] = "/home/u/lib/util".
Proof. vm_compute. reflexivity. Qed.

Example parseArgs_bundle :
  parseArgs "/app" ["-sc"; "-C"; "/work"; "main.js"; "-s"]
  = Ok (Options "/work" true true false, ["main.js"; "-s"]).
Proof. vm_compute. reflexivity. Qed.

Example parseArgs_stdin : parseArgs "/app" ["-"] = Ok (Options "." false false false, ["-"]).
Proof. reflexivity. Qed.

Example parseArgs_value_inside :
  parseArgs "/app" ["-Cs"; "/work"; "main.js"] = Throw (JsError "-C requires a value").
Proof. reflexivity. Qed.

Example parseArgs_value_missing : parseArgs "/app" ["-C"] = Throw (TypeError "paths[0]").
Proof. reflexivity. Qed.

(** The imports of every kind, in one unit. *)
Example mixed_imports :
  observed (Demo.scan_of Demo.mixed_fs (File "/app/main.js"))
  = Some (["@scope/pkg"; "pkg"; ""], [], ["/app/main.js"]).
Proof. vm_compute. reflexivity. Qed.

(** An import that does not resolve ends the scan. *)
Example missing_import :
  Demo.scan_of Demo.mixed_fs (Mem (Blob "-" "require('./nowhere')"))
  = Throw (MODULE_NOT_FOUND "/app/nowhere").
Proof. vm_compute. reflexivity. Qed.

(** A working directory that was there, with its manifest and its
    [node_modules]: [-c] removes nothing. *)
Example used_directory_kept :
  (Demo.main_of Demo.exit0 Demo.used_fs ["-sc"; "-C"; "/work"; "main.js"] []).1 = Ok tt
  ∧ removed (w_out (Demo.main_of Demo.exit0 Demo.used_fs
                      ["-sc"; "-C"; "/work"; "main.js"] []).2) = [].
Proof. split; vm_compute; reflexivity. Qed.

(** An installer that ends with the code 1: [main] fails, and the only child
    was the installer. *)
Example failed_install_stops :
  (Demo.main_of Demo.exit1 Demo.used_fs ["main.js"] []).1
  = Throw (ChildFailed (Some 1%Z) None)
  ∧ sp_command <$> spawned (w_out (Demo.main_of Demo.exit1 Demo.used_fs ["main.js"] []).2)
    = ["npm"].
Proof. split; vm_compute; reflexivity. Qed.

(** * The specification, statement by statement *)

Section ScanProperties.
Variable builtinModules : list string.
Variable fs : gmap string fnode.
Variable require_resolve : string → option string.
Variable pcwd : string.

Local Abbreviation scanDeps := (scanDeps builtinModules fs require_resolve pcwd).
Local Abbreviation scan_import := (scan_import builtinModules require_resolve pcwd).
Local Abbreviation scan := (scan builtinModules fs require_resolve pcwd).
Local Abbreviation subentry_request := (subentry_request pcwd).


(** C2, as the code has it.  In every scan from two empty sets no file is
    read twice, and only files of visited entries are read.  Where two
    scripts [a] and [b], both required by [m], both require one module
    [u] that has no relative import, [u] is read once, with [a]; the
    import of [u] by [b] warns about [u] and returns, although [u] is not
    on the path from [m] to [b]: the warning is for every entry that is in
    the visited set, and the set never shrinks. *)
Theorem shared_module_read_once_then_warned :
  (∀ e st',
     scan e scan_init = Ok st' →
     NoDup (reads st') ∧ ∀ p, p ∈ reads st' → File p ∈ visited st')
  ∧ (∀ m a b u cm ca cb cu ra rb rua rub,
       NoDup [m; a; b; u] →
       fs !! m = Some (FFile cm) → fs !! a = Some (FFile ca) →
       fs !! b = Some (FFile cb) → fs !! u = Some (FFile cu) →
       Re.matches cm = [ra; rb] → Re.matches ca = [rua] → Re.matches cb = [rub] →
       Forall (λ dep, Js.startsWith "." dep = false) (Re.matches cu) →
       Js.startsWith "." ra = true → Js.startsWith "." rb = true →
       Js.startsWith "." rua = true → Js.startsWith "." rub = true →
       require_resolve (subentry_request (File m) ra) = Some a →
       require_resolve (subentry_request (File m) rb) = Some b →
       require_resolve (subentry_request (File a) rua) = Some u →
       require_resolve (subentry_request (File b) rub) = Some u →
       ∃ st',
         scan (File m) scan_init = Ok st'
         ∧ reads st' = [m; a; u; b] ∧ warnings st' = [File u]).
Proof.
  split.
  - intros e st' Hs. apply scanDeps_steps in Hs.
    destruct (steps_reads _ _ _ _ Hs) as [Hrv Hnd]; [|done].
    split; [|constructor]. intros p Hp. by apply elem_of_nil in Hp.
  - intros m a b u cm ca cb cu ra rb rua rub Hnd Hm Ha Hb Hu Hmm Hma Hmb Hmu
      Hra Hrb Hrua Hrub Hrma Hrmb Hrau Hrbu.
    apply NoDup_cons in Hnd as [Hm1 Hnd]. apply NoDup_cons in Hnd as [Ha1 Hnd].
    apply NoDup_cons in Hnd as [Hb1 _].
    assert (m ≠ a ∧ m ≠ b ∧ m ≠ u ∧ a ≠ b ∧ a ≠ u ∧ b ≠ u) as (Hn1&Hn2&Hn3&Hn4&Hn5&Hn6).
    { set_solver. }
    assert (∃ ds, scanDeps 4 (File m) scan_init
              = Ok (ScanState ds
                      ({[File b]} ∪ ({[File u]} ∪ ({[File a]} ∪ ({[File m]} ∪ ∅))))
                      [File u] [m; a; u; b])) as [ds Hfour].
    { rewrite (scanDeps_first _ _ _ _ _ _ _ cm); [|set_solver|by simpl; rewrite Hm].
      rewrite Hmm, scan_loop_cons, (scan_import_relative _ _ _ _ _ _ _ a) by done.
      rewrite (scanDeps_first _ _ _ _ _ _ _ ca);
        [|simpl; set_solver|by simpl; rewrite Ha].
      rewrite Hma, scan_loop_cons, (scan_import_relative _ _ _ _ _ _ _ u) by done.
      rewrite (scanDeps_first _ _ _ _ _ _ _ cu);
        [|simpl; set_solver|by simpl; rewrite Hu].
      edestruct (scan_loop_leaf builtinModules require_resolve pcwd (scanDeps 1) (File u))
        as [ds ->]; [exact Hmu|].
      simpl visited. simpl warnings. simpl reads. rewrite scan_loop_nil, scan_loop_cons.
      rewrite (scan_import_relative _ _ _ _ _ _ _ b) by done.
      rewrite (scanDeps_first _ _ _ _ _ _ _ cb);
        [|simpl; set_solver|by simpl; rewrite Hb].
      rewrite Hmb, scan_loop_cons, (scan_import_relative _ _ _ _ _ _ _ u) by done.
      rewrite scanDeps_revisit by (simpl; set_solver).
      exists ds. done. }
    eexists. split.
    + destruct (scanDeps_total builtinModules fs require_resolve pcwd (File m) scan_init)
        as [_ Hfuel].
      rewrite <- (Hfuel (4 `max` scan_fuel fs)) by lia.
      apply scanDeps_more with 4; [exact Hfour|done|lia].
    + done.
Qed.


End ScanProperties.


(** C2 as the specification states it does not hold on a diamond: [main.js]
    requires [a.js] and [b.js], both require [util.js], nothing requires
    what requires it, and yet the scan warns about [util.js]; no scan of
    that entry ends without a warning. *)
Lemma diamond_warns :
  observed (Demo.scan_of Demo.diamond_fs (File "/app/main.js"))
  = Some (["left-pad"], [File "/app/util.js"],
          ["/app/main.js"; "/app/a.js"; "/app/util.js"; "/app/b.js"])
  ∧ ¬ ∃ st',
        Demo.scan_of Demo.diamond_fs (File "/app/main.js") = Ok st'
        ∧ warnings st' = [].
Proof.
  assert (observed (Demo.scan_of Demo.diamond_fs (File "/app/main.js"))
          = Some (["left-pad"], [File "/app/util.js"],
                  ["/app/main.js"; "/app/a.js"; "/app/util.js"; "/app/b.js"])) as Hobs
    by (vm_compute; reflexivity).
  split; [exact Hobs|]. intros (st' & Hs & Hw). rewrite Hs in Hobs.
  unfold observed in Hobs. rewrite Hw in Hobs. inversion Hobs.
Qed.

Lemma shared_module_read_once_then_warned_witness :
  ∃ st',
    Demo.scan_of Demo.diamond_fs (File "/app/main.js") = Ok st'
    ∧ reads st' = ["/app/main.js"; "/app/a.js"; "/app/util.js"; "/app/b.js"]
    ∧ warnings st' = [File "/app/util.js"].
Proof.
  apply (proj2 (shared_module_read_once_then_warned
                  Demo.builtins Demo.diamond_fs (Demo.resolve_in Demo.diamond_fs) "/app")
           "/app/main.js" "/app/a.js" "/app/b.js" "/app/util.js"
           "require('./a'); require('./b');" "module.exports = require('./util');"
           "module.exports = require('./util');" "module.exports = require('left-pad');"
           "./a" "./b" "./util" "./util");
    try (vm_compute; reflexivity); compute_done.
Defined.


Section MainProperties.
Variable builtinModules : list string.
Variable require_resolve : string → option string.
Variable pcwd : string.
Variable child : spawn_request → gmap string fnode → child_exit * gmap string fnode.

Local Abbreviation scan := (scan builtinModules).
Local Abbreviation scan_import := (scan_import builtinModules require_resolve pcwd).
Local Abbreviation subentry_request := (subentry_request pcwd).
Local Abbreviation run_scan := (run_scan builtinModules require_resolve pcwd).
Local Abbreviation abs := (abs pcwd).
Local Abbreviation prepare := (prepare pcwd).
Local Abbreviation cleanup_paths := (cleanup_paths pcwd).
Local Abbreviation pkgFile := (pkgFile pcwd).
Local Abbreviation modulesPath := (modulesPath pcwd).
Local Abbreviation run_request := (run_request pcwd).
Local Abbreviation run_entry := (run_entry builtinModules require_resolve pcwd child).
Local Abbreviation run_cases := (run_cases builtinModules require_resolve pcwd child).
Local Abbreviation main := (main builtinModules require_resolve pcwd child).




(** C5.  Whatever [main] removes, it removes with the option [clean] set,
    and it is the [node_modules] directory, the manifest or the working
    directory with its flag set by [prepare], before the installer was
    started; and a path with its flag set was not there when [main]
    began.  In a file system where the directories above every path
    exist, no removal touches a path that was there when [main] began:
    neither that path nor a directory above it is removed. *)
Theorem cleanup_removes_only_what_was_missing :
  ∀ argv stdin fs r w',
    main argv stdin (World fs []) = (r, w') →
    (∀ p,
       p ∈ removed (w_out w') →
       fs !! p = None
       ∧ ∃ o rest e st w1 fl w2,
           parseArgs pcwd argv = Ok (o, rest) ∧ clean o = true
           ∧ run_scan e (World fs []) = (Ok st, w1)
           ∧ prepare o w1 = (Ok fl, w2)
           ∧ removed (w_out w') = cleanup_paths o fl
           ∧ ((p = abs (modulesPath o) ∧ cleanModules fl = true)
              ∨ (p = abs (pkgFile o) ∧ cleanPkg fl = true)
              ∨ (p = abs (cwd o) ∧ cleanCwd fl = true)))
    ∧ (fs_closed fs →
       ∀ p q, p ∈ removed (w_out w') → is_Some (fs !! q) → removes p q = false).
Proof.
  intros argv stdin fs r w' Hm.
  assert (∀ p,
       p ∈ removed (w_out w') →
       fs !! p = None
       ∧ ∃ o rest e st w1 fl w2,
           parseArgs pcwd argv = Ok (o, rest) ∧ clean o = true
           ∧ run_scan e (World fs []) = (Ok st, w1)
           ∧ prepare o w1 = (Ok fl, w2)
           ∧ removed (w_out w') = cleanup_paths o fl
           ∧ ((p = abs (modulesPath o) ∧ cleanModules fl = true)
              ∨ (p = abs (pkgFile o) ∧ cleanPkg fl = true)
              ∨ (p = abs (cwd o) ∧ cleanCwd fl = true))) as Hrm.
  { intros p Hp.
    apply main_cases in Hm as [(_ & Hr & _)|(o & rest & e & Hparse & _ & Hrun)].
    { rewrite Hr in Hp. by apply elem_of_nil in Hp. }
    apply run_entry_cases in Hrun as (sp & rmv & Hc & _ & Hr).
    rewrite Hr in Hp. simpl in Hp, Hr.
    destruct r as [[]| |].
    2,3: apply run_cases_failed in Hc as ->; [by apply elem_of_nil in Hp|done].
    apply run_cases_ok in Hc as (st & w1 & fl & w2 & H1 & H2 & _ & _ & _ & ->).
    pose proof (cleanup_paths_elem _ _ _ _ Hp) as [Hclean Hwhich].
    pose proof H1 as Hfs. apply run_scan_inv in Hfs as (Hfs & _). simpl in Hfs.
    pose proof H2 as Hfl. apply prepare_inv in Hfl as (_ & _ & _ & _ & Hfl).
    destruct (Hfl fl eq_refl) as (Hcwd & Hpkg & Hmod). rewrite Hfs in Hcwd, Hpkg, Hmod.
    split.
    - destruct Hwhich as [[-> ?]|[[-> ?]|[-> ?]]]; auto.
    - by exists o, rest, e, st, w1, fl, w2. }
  split; [exact Hrm|].
  intros Hclosed p q Hp [x Hq]. destruct (Hrm p Hp) as [Hnone _].
  unfold removes. apply orb_false_iff. split; apply bool_decide_eq_false.
  - intros ->. congruence.
  - intros Hanc. specialize (Hclosed q x Hq). simpl in Hclosed.
    rewrite Forall_forall in Hclosed. destruct (Hclosed p Hanc) as [y Hy]. congruence.
Qed.

(** C6, as the code has it.  A run that succeeds went through the
    installer and the runner, both ended with an exit code that is not
    truthy, and then every path whose flag is set is removed, when [clean]
    is set.  A run that fails removes nothing: an installer or a runner
    that fails ends [main] before lines 183 to 188.  Removing never
    throws, whether the path is there or not. *)
Theorem cleanup_only_after_success :
  (∀ o rest e w r w',
     run_entry o rest e w = (r, w') →
     (r = Ok tt →
      ∃ st w1 fl w2,
        run_scan e w = (Ok st, w1) ∧ prepare o w1 = (Ok fl, w2)
        ∧ exit_ok (child (install_request o (deps st)) (w_fs w2)).1 = true
        ∧ exit_ok (child (run_request o rest e)
                     (child (install_request o (deps st)) (w_fs w2)).2).1 = true
        ∧ removed (w_out w') = removed (w_out w) ++ cleanup_paths o fl)
     ∧ (r ≠ Ok tt → removed (w_out w') = removed (w_out w)))
  ∧ (∀ o fl,
       clean o = true →
       (cleanModules fl = true → abs (modulesPath o) ∈ cleanup_paths o fl)
       ∧ (cleanPkg fl = true → abs (pkgFile o) ∈ cleanup_paths o fl)
       ∧ (cleanCwd fl = true → abs (cwd o) ∈ cleanup_paths o fl))
  ∧ (∀ p w, (rm pcwd p w).1 = Ok tt).
Proof.
  split_and!; [| |done].
  - intros o rest e w r w' Hrun.
    apply run_entry_cases in Hrun as (sp & rmv & Hc & _ & Hr). split.
    + intros ->. apply run_cases_ok in Hc as (st & w1 & fl & w2 & ? & ? & ? & ? & _ & ->).
      by exists st, w1, fl, w2.
    + intros Hne. apply run_cases_failed in Hc as ->; [|done]. by rewrite app_nil_r in Hr.
  - intros o fl Hclean. unfold cleanup_paths. rewrite Hclean.
    split_and!; intros ->; set_solver.
Qed.

(** C8.  With [-] as the entry file, the entry of the run is an object in
    memory that holds all that standard input gave, and that is what is
    scanned.  For the text [require("left-pad")] the scan gives the one
    package [left-pad], without a warning and without reading a file.  The runner
    that [main] starts gets the arguments from [-] on, with that text
    written to its standard input (line 71 writes a text that is not
    empty); and a [main] that succeeds has started it. *)
Theorem stdin_script_scanned_and_piped :
  ∀ argv o rest stdin fs,
    parseArgs pcwd argv = Ok (o, "-" :: rest) → help o = false →
    main argv stdin (World fs [])
    = run_entry o ("-" :: rest) (Mem (Blob "-" (readStream stdin))) (World fs [])
    ∧ (readStream stdin = "require(" +:+ Re.dq +:+ "left-pad" +:+ Re.dq +:+ ")" →
       "left-pad" ∉ builtinModules →
       observed (scan fs require_resolve pcwd (Mem (Blob "-" (readStream stdin))) scan_init)
       = Some (["left-pad"], [], []))
    ∧ (nonempty (readStream stdin) = true →
       ∀ r w' req,
         main argv stdin (World fs []) = (r, w') →
         req ∈ spawned (w_out w') → sp_command req = "node" →
         sp_args req = "-" :: rest ∧ sp_stdin req = Some (readStream stdin))
    ∧ (∀ w', main argv stdin (World fs []) = (Ok tt, w') →
         ∃ req, req ∈ spawned (w_out w') ∧ sp_command req = "node").
Proof.
  intros argv o rest stdin fs Hparse Hhelp.
  pose proof (main_stdin builtinModules require_resolve pcwd child
                argv o rest stdin (World fs []) Hparse Hhelp) as Hmain.
  split_and!; [exact Hmain| | |].
  - intros Hc Hb. unfold scan, scan_fuel. rewrite Nat.add_comm.
    change (2 + size (dom fs)) with (S (S (size (dom fs)))).
    rewrite (scanDeps_first _ _ _ _ _ _ _ (readStream stdin)); [|set_solver|done].
    rewrite Hc.
    change (Re.matches ("require(" +:+ Re.dq +:+ "left-pad" +:+ Re.dq +:+ ")"))
      with ["left-pad"].
    rewrite scan_loop_cons. unfold scan_import.
    change (Js.startsWith "." "left-pad") with false.
    change (package_of "left-pad") with "left-pad". cbv iota.
    by rewrite bool_decide_eq_false_2.
  - intros Hne r w' req Hm Hin Hnode. rewrite Hmain in Hm.
    apply run_entry_cases in Hm as (sp & rmv & Hc & Hs & _).
    rewrite Hs in Hin. simpl in Hin.
    destruct (run_cases_spawned _ _ _ _ _ _ _ _ _ _ _ _ Hc Hin)
      as [(st & Hst & ->)| ->]; [discriminate|].
    simpl. by rewrite Hne.
  - intros w' Hm. rewrite Hmain in Hm.
    apply run_entry_cases in Hm as (sp & rmv & Hc & Hs & _).
    apply run_cases_ok in Hc as (st & w1 & fl & w2 & _ & _ & _ & _ & -> & _).
    exists (run_request o ("-" :: rest) (Mem (Blob "-" (readStream stdin)))).
    split; [|done]. rewrite Hs. set_solver.
Qed.


End MainProperties.



Lemma cleanup_removes_only_what_was_missing_witness :
  removed (w_out (Demo.main_of Demo.exit0 Demo.fresh_fs
                    ["-c"; "-C"; "/tmp/run"; "-"] Demo.piped).2)
  = ["/tmp/run/node_modules"; "/tmp/run/package.json"; "/tmp/run"]
  ∧ Demo.fresh_fs !! "/tmp/run/package.json" = None
  ∧ removes "/tmp/run" "/tmp" = false.
Proof.
  split; [vm_compute; reflexivity|].
  destruct (cleanup_removes_only_what_was_missing
              Demo.builtins (Demo.resolve_in Demo.fresh_fs) "/app" (Demo.child Demo.exit0)
              ["-c"; "-C"; "/tmp/run"; "-"] Demo.piped Demo.fresh_fs _ _
              (surjective_pairing _)) as [Hmissing Hkept].
  split.
  - apply (Hmissing "/tmp/run/package.json"). compute_done.
  - apply Hkept; compute_done.
Defined.

(** C6 as the specification states it does not hold where the installer
    fails: the working directory and the manifest that this run made are
    left, and nothing was removed, although [-c] was given. *)
Lemma failed_install_leaves_artifacts :
  (Demo.main_of Demo.exit1 Demo.fresh_fs ["-c"; "-C"; "/tmp/run"; "-"] Demo.piped).1
  = Throw (ChildFailed (Some 1%Z) None)
  ∧ removed (w_out (Demo.main_of Demo.exit1 Demo.fresh_fs
                      ["-c"; "-C"; "/tmp/run"; "-"] Demo.piped).2) = []
  ∧ Demo.fresh_fs !! "/tmp/run" = None
  ∧ w_fs (Demo.main_of Demo.exit1 Demo.fresh_fs
            ["-c"; "-C"; "/tmp/run"; "-"] Demo.piped).2 !! "/tmp/run" = Some FDir
  ∧ Demo.fresh_fs !! "/tmp/run/package.json" = None
  ∧ w_fs (Demo.main_of Demo.exit1 Demo.fresh_fs
            ["-c"; "-C"; "/tmp/run"; "-"] Demo.piped).2 !! "/tmp/run/package.json"
    = Some (FFile "{}").
Proof. split_and!; vm_compute; reflexivity. Qed.

Lemma cleanup_only_after_success_witness :
  removed (w_out (Demo.run_of Demo.exit1 Demo.fresh_fs Demo.clean_tmp ["-"] Demo.piped_entry).2)
  = removed []
  ∧ ∃ st w1 fl w2,
      run_scan Demo.builtins (Demo.resolve_in Demo.fresh_fs) "/app" Demo.piped_entry
        (World Demo.fresh_fs []) = (Ok st, w1)
      ∧ prepare "/app" Demo.clean_tmp w1 = (Ok fl, w2)
      ∧ exit_ok (Demo.child Demo.exit0 (install_request Demo.clean_tmp (deps st)) (w_fs w2)).1
        = true
      ∧ exit_ok (Demo.child Demo.exit0 (run_request "/app" Demo.clean_tmp ["-"] Demo.piped_entry)
                   (Demo.child Demo.exit0 (install_request Demo.clean_tmp (deps st))
                      (w_fs w2)).2).1 = true
      ∧ removed (w_out (Demo.run_of Demo.exit0 Demo.fresh_fs Demo.clean_tmp ["-"]
                          Demo.piped_entry).2)
        = removed [] ++ cleanup_paths "/app" Demo.clean_tmp fl.
Proof.
  split.
  - apply (proj2 (proj1 (cleanup_only_after_success
                           Demo.builtins (Demo.resolve_in Demo.fresh_fs) "/app"
                           (Demo.child Demo.exit1))
                    Demo.clean_tmp ["-"] Demo.piped_entry (World Demo.fresh_fs []) _ _
                    (surjective_pairing _))).
    vm_compute. discriminate.
  - apply (proj1 (proj1 (cleanup_only_after_success
                           Demo.builtins (Demo.resolve_in Demo.fresh_fs) "/app"
                           (Demo.child Demo.exit0))
                    Demo.clean_tmp ["-"] Demo.piped_entry (World Demo.fresh_fs []) _ _
                    (surjective_pairing _))).
    vm_compute. reflexivity.
Defined.

(** C7 on an installer that a signal ends: the event [close] comes with the
    code [null], which is not truthy, so [spawnAsync] resolves, and [main]
    goes on to start the runner and succeeds. *)
Theorem killed_installer_counts_as_success :
  (∀ signal, exit_ok (ExitClose None signal) = true)
  ∧ (Demo.main_of Demo.killed Demo.fresh_fs ["-C"; "/tmp/run"; "-"] Demo.piped).1 = Ok tt
  ∧ sp_command <$> spawned (w_out (Demo.main_of Demo.killed Demo.fresh_fs
                                     ["-C"; "/tmp/run"; "-"] Demo.piped).2)
    = ["npm"; "node"].
Proof. split_and!; [done|vm_compute; reflexivity..]. Qed.

Lemma stdin_script_scanned_and_piped_witness :
  observed (scan Demo.builtins Demo.used_fs (Demo.resolve_in Demo.used_fs) "/app"
              (Mem (Blob "-" (readStream Demo.piped))) scan_init)
  = Some (["left-pad"], [], []).
Proof.
  apply (proj1 (proj2 (stdin_script_scanned_and_piped
                         Demo.builtins (Demo.resolve_in Demo.used_fs) "/app"
                         (Demo.child Demo.exit0)
                         ["-"] (Options "." false false false) [] Demo.piped Demo.used_fs
                         eq_refl eq_refl)));
    [vm_compute; reflexivity|compute_done].
Defined.


(** * Further properties of the code *)

(** ** What the pattern finds *)

Lemma strip_prefix_app p s r : Re.strip_prefix p s = Some r → s = p +:+ r.
Proof.
  revert s. induction p as [|a p IH]; intros [|b s]; simpl; try done.
  - by intros [= <-].
  - by intros [= <-].
  - destruct (Ascii.eqb a b) eqn:Hab; [|done]. apply Ascii.eqb_eq in Hab as ->.
    intros H. by rewrite (IH _ H).
Qed.

Lemma span_body_app s body tail :
  Re.span_body s = (body, tail) → s = body +:+ tail ∧ quote_free body = true.
Proof.
  revert body tail. induction s as [|c s IH]; intros body tail; simpl.
  - by intros [= <- <-].
  - destruct (Re.is_quote c) eqn:Hq.
    + by intros [= <- <-].
    + destruct (Re.span_body s) as [b t]. intros [= <- <-].
      destruct (IH b t eq_refl) as [-> Hb]. simpl. by rewrite Hq, Hb.
Qed.

Lemma char_before_app prev a b :
  char_before prev (a +:+ b) = char_before (char_before prev a) b.
Proof. revert prev. induction a as [|c a IH]; intros prev; [done|]. apply IH. Qed.

Lemma match_here_sound prev s m prev' s' :
  Re.match_here prev s = Some (m, (prev', s')) →
  ∃ q,
    s = "require(" +:+ String q (m +:+ String q s')
    ∧ Re.is_quote q = true ∧ quote_free m = true
    ∧ Re.word_of prev = false ∧ prev' = Some q.
Proof.
  unfold Re.match_here. destruct (Re.word_boundary prev s) eqn:Hw; [|done].
  destruct (Re.strip_prefix "require(" s) as [[|q rest]|] eqn:Hp; try done.
  destruct (Re.is_quote q) eqn:Hq; [|done].
  destruct (Re.span_body rest) as [body [|q' tail]] eqn:Hb; [done|].
  destruct (Ascii.eqb q' q) eqn:Hqq; [|done]. apply Ascii.eqb_eq in Hqq as ->.
  intros [= <- <- <-]. apply strip_prefix_app in Hp as ->.
  apply span_body_app in Hb as [-> Hfree]. exists q. split_and!; try done.
  unfold Re.word_boundary in Hw. simpl in Hw. by destruct (Re.word_of prev).
Qed.

Lemma exec_sound prev s m prev' s' :
  Re.exec prev s = Some (m, (prev', s')) →
  ∃ pre q,
    s = pre +:+ "require(" +:+ String q (m +:+ String q s')
    ∧ Re.is_quote q = true ∧ quote_free m = true
    ∧ Re.word_of (char_before prev pre) = false ∧ prev' = Some q.
Proof.
  revert prev. induction s as [|c s IH]; intros prev; simpl.
  - destruct (Re.match_here prev "") as [[m0 [p0 s0]]|] eqn:Hm; [|done].
    intros [= <- <- <-]. apply match_here_sound in Hm as (q & ? & ? & ? & ? & ?).
    by exists "", q.
  - destruct (Re.match_here prev (String c s)) as [[m0 [p0 s0]]|] eqn:Hm.
    + intros [= <- <- <-]. apply match_here_sound in Hm as (q & ? & ? & ? & ? & ?).
      by exists "", q.
    + intros H. apply IH in H as (pre & q & -> & ? & ? & ? & ?).
      by exists (String c pre), q.
Qed.

Lemma all_sound fuel prev s m :
  m ∈ Re.all fuel prev s →
  ∃ pre q post,
    s = pre +:+ "require(" +:+ String q (m +:+ String q post)
    ∧ Re.is_quote q = true ∧ quote_free m = true
    ∧ Re.word_of (char_before prev pre) = false.
Proof.
  revert prev s. induction fuel as [|fuel IH]; intros prev s; simpl.
  { by intros ?%elem_of_nil. }
  destruct (Re.exec prev s) as [[m0 [p0 s0]]|] eqn:He; [|by intros ?%elem_of_nil].
  apply exec_sound in He as (pre & q & -> & Hq & Hfree & Hw & ->).
  intros [->|Hin]%elem_of_cons.
  - by exists pre, q, s0.
  - apply IH in Hin as (pre' & q' & post & -> & ? & ? & Hw').
    exists (pre +:+ "require(" +:+ String q (m0 +:+ String q pre')), q', post.
    split_and!; try done.
    + by rewrite !app_assoc_s, !app_cons_s, !app_assoc_s, !app_cons_s.
    + rewrite char_before_app. simpl.
      rewrite (char_before_app _ m0 (String q pre')). exact Hw'.
Qed.

(** X1.  Every import that the pattern finds stands in the text between two
    equal quotes after [require(], has no quote in it, and the character
    before [require(], if there is one, is not a letter, a digit or an
    underscore. *)
Theorem matches_sound code m :
  m ∈ Re.matches code →
  ∃ pre q post,
    code = pre +:+ "require(" +:+ String q (m +:+ String q post)
    ∧ Re.is_quote q = true ∧ quote_free m = true
    ∧ Re.word_of (char_before None pre) = false.
Proof. apply all_sound. Qed.

Lemma matches_sound_witness :
  ∃ pre q post,
    "const x=require('a/b');" = pre +:+ "require(" +:+ String q ("a/b" +:+ String q post)
    ∧ Re.is_quote q = true ∧ quote_free "a/b" = true
    ∧ Re.word_of (char_before None pre) = false.
Proof. apply (matches_sound "const x=require('a/b');" "a/b"). compute_done. Defined.

Lemma match_here_occurs prev s r :
  Re.match_here prev s = Some r → Re.strip_prefix "require(" s ≠ None.
Proof.
  unfold Re.match_here. destruct (Re.word_boundary prev s); [|done].
  by destruct (Re.strip_prefix "require(" s).
Qed.

Lemma exec_occurs prev s r : Re.exec prev s = Some r → occurs "require(" s = true.
Proof.
  revert prev. induction s as [|c s IH]; intros prev.
  - simpl. destruct (Re.match_here prev "") eqn:Hm; [|done].
    by apply match_here_occurs in Hm.
  - cbn [Re.exec occurs]. destruct (Re.match_here prev (String c s)) eqn:Hm.
    + intros _. apply match_here_occurs in Hm.
      by destruct (Re.strip_prefix "require(" (String c s)).
    + intros H. apply IH in H. by destruct (Re.strip_prefix "require(" (String c s)).
Qed.

Lemma matches_none code : occurs "require(" code = false → Re.matches code = [].
Proof.
  intros Ho. unfold Re.matches. destruct (String.length code); [done|]. simpl.
  destruct (Re.exec None code) as [r|] eqn:He; [|done].
  apply exec_occurs in He. congruence.
Qed.

Lemma startsWith_head a c x y :
  Js.startsWith (String a "") (String c x) = Js.startsWith (String a "") (String c y).
Proof.
  unfold Js.startsWith. simpl. destruct (ascii_dec a c); [|done]. by destruct x, y.
Qed.

Lemma join_head (sep : string) c seg segs :
  ∃ x, Js.join sep (String c seg :: segs) = String c x.
Proof. destruct segs; [by exists seg|]. by eexists. Qed.

(** The package of an import that does not start with a dot does not start
    with one. *)
Lemma package_not_relative dep :
  Js.startsWith "." dep = false → Js.startsWith "." (package_of dep) = false.
Proof.
  destruct dep as [|c dep]; [done|]. intros Hrel. unfold package_of.
  cbn [Js.split]. destruct (Ascii.eqb c "/") eqn:Hc.
  - apply Ascii.eqb_eq in Hc as ->.
    assert (Js.startsWith "@" (String "/" dep) = false) as -> by reflexivity.
    reflexivity.
  - pose proof (split_nonempty "/" dep) as Hn.
    destruct (Js.split "/" dep) as [|seg segs]; [done|].
    assert (∃ x, (if Js.startsWith "@" (String c dep)
                  then Js.join "/" (Js.slice0 2 (String c seg :: segs))
                  else Js.first (String c seg :: segs)) = String c x) as [x ->].
    { destruct (Js.startsWith "@" _); [|by exists seg].
      unfold Js.slice0. destruct segs as [|seg' segs]; [by exists seg|].
      apply (join_head "/" c seg [seg']). }
    by rewrite (startsWith_head _ _ x dep).
Qed.

Section ScanExtra.
Variable builtinModules : list string.
Variable fs : gmap string fnode.
Variable require_resolve : string → option string.
Variable pcwd : string.

Local Abbreviation scanDeps := (scanDeps builtinModules fs require_resolve pcwd).
Local Abbreviation scan_loop := (scan_loop builtinModules require_resolve pcwd).
Local Abbreviation scan_import := (scan_import builtinModules require_resolve pcwd).
Local Abbreviation scan := (scan builtinModules fs require_resolve pcwd).
Local Abbreviation subentry_request := (subentry_request pcwd).
Local Abbreviation steps := (rtc (scan_step builtinModules fs)).

Lemma scan_unfold e st :
scan e st = scanDeps (S (S (size (dom fs)))) e st.
Proof. unfold scan, scan_fuel. by rewrite Nat.add_comm. Qed.

(** X2.  A text in which [require(] does not occur has no import: the scan
  of an entry with such a text succeeds, finds no package, warns about
  nothing, and visits and reads the entry only. *)
Theorem scan_without_require e code :
code_of fs e = Some code → occurs "require(" code = false →
scan e scan_init
= Ok (ScanState [] ({[e]} ∪ ∅) [] (if e is File p then [p] else [])).
Proof.
intros Hc Ho. rewrite scan_unfold.
rewrite (scanDeps_first _ _ _ _ _ _ _ code); [|set_solver|done].
by rewrite (matches_none code Ho).
Qed.

(** *** Order and duplicates *)

Lemma set_add_prefix x (s : list string) : s `prefix_of` Js.set_add x s.
Proof. unfold Js.set_add. case_bool_decide; [done|]. by apply prefix_app_r. Qed.

Lemma set_add_NoDup x (s : list string) : NoDup s → NoDup (Js.set_add x s).
Proof.
intros Hs. unfold Js.set_add. case_bool_decide as Hx; [done|].
apply NoDup_app. split_and!; [done| |apply NoDup_singleton].
intros y Hy ->%list_elem_of_singleton. done.
Qed.

Lemma steps_grow st st' :
steps st st' →
deps st `prefix_of` deps st' ∧ warnings st `prefix_of` warnings st'
∧ reads st `prefix_of` reads st' ∧ (NoDup (deps st) → NoDup (deps st')).
Proof.
induction 1 as [st|st1 st2 st3 Hs _ IH].
{ by split_and!. }
destruct IH as (Hd & Hw & Hr & Hn).
assert (deps st1 `prefix_of` deps st2 ∧ warnings st1 `prefix_of` warnings st2
        ∧ reads st1 `prefix_of` reads st2 ∧ (NoDup (deps st1) → NoDup (deps st2)))
  as (Hd1 & Hw1 & Hr1 & Hn1).
{ inversion Hs; subst; simpl; split_and!; try done;
    try (by apply prefix_app_r); [apply set_add_prefix|apply set_add_NoDup]. }
split_and!; [by etrans..|auto].
Qed.

(** X3.  A scan only appends: the packages, the warnings and the files read
  of the state it starts from are the first ones of the state it ends
  with, in the same order, the visited set only grows, and the list of
  packages stays free of duplicates. *)
Theorem scanDeps_appends fuel e st st' :
scanDeps fuel e st = Ok st' →
deps st `prefix_of` deps st' ∧ warnings st `prefix_of` warnings st'
∧ reads st `prefix_of` reads st' ∧ visited st ⊆ visited st'
∧ (NoDup (deps st) → NoDup (deps st')).
Proof.
intros Hs. apply scanDeps_steps in Hs.
destruct (steps_grow _ _ Hs) as (? & ? & ? & ?).
split_and!; try done. by apply (steps_visited builtinModules fs).
Qed.

(** X4.  No package of a scan starts with a dot: a relative import is walked
  into, and never handed to the installer. *)
Theorem relative_never_collected e st' d :
scan e scan_init = Ok st' → d ∈ deps st' → Js.startsWith "." d = false.
Proof.
intros Hs Hd. apply scanDeps_steps in Hs.
destruct (steps_package _ _ _ _ Hs d Hd) as [Hin|(dep & Hrel & ->)].
- by apply elem_of_nil in Hin.
- by apply package_not_relative.
Qed.

(** *** What a scan throws *)

Lemma scan_loop_app rec e ms1 ms2 st :
scan_loop rec e (ms1 ++ ms2) st
= match scan_loop rec e ms1 st with
  | Ok st' => scan_loop rec e ms2 st'
  | Throw err => Throw err
  | OutOfFuel => OutOfFuel
  end.
Proof.
revert st. induction ms1 as [|dep ms1 IH]; intros st; [done|].
simpl. by destruct (scan_import rec e st dep).
Qed.

Lemma scan_loop_throws (Q : error → Prop) rec e :
(∀ p st err, rec (File p) st = Throw err → Q err) →
(∀ r, require_resolve r = None → Q (MODULE_NOT_FOUND r)) →
∀ ms st err, scan_loop rec e ms st = Throw err → Q err.
Proof.
intros Hrec Hres ms. induction ms as [|dep ms IH]; intros st err; [done|].
simpl. destruct (scan_import rec e st dep) as [st1|err1|] eqn:Hi; [apply IH| |done].
intros [= <-]. unfold scan_import in Hi.
destruct (Js.startsWith "." dep); [|by case_bool_decide].
destruct (require_resolve _) eqn:Hr; [by apply Hrec in Hi|].
simplify_eq. by apply Hres.
Qed.

(** X5.  A scan throws for two reasons only: a file to scan that cannot be
  read, because it is not there or is a directory, and a relative import
  that [require.resolve] does not resolve. *)
Theorem scanDeps_throws fuel e st err :
scanDeps fuel e st = Throw err →
(∃ p, err = ENOENT p ∧ fs !! p = None)
∨ (∃ p, err = EISDIR p ∧ fs !! p = Some FDir)
∨ (∃ r, err = MODULE_NOT_FOUND r ∧ require_resolve r = None).
Proof.
revert e st err. induction fuel as [|fuel IH]; intros e st err; [done|].
simpl. case_bool_decide; [done|].
destruct (read_code fs e _) as [[code st2]|err1|] eqn:Hr; [| |done].
- intros Hl.
  eapply (scan_loop_throws
            (λ err, (∃ p, err = ENOENT p ∧ fs !! p = None)
                    ∨ (∃ p, err = EISDIR p ∧ fs !! p = Some FDir)
                    ∨ (∃ r, err = MODULE_NOT_FOUND r ∧ require_resolve r = None)));
    [| |exact Hl].
  + intros p s err'. apply IH.
  + intros r Hr'. eauto.
- intros [= <-]. destruct e as [p|b]; [|done]. simpl in Hr. unfold readFile in Hr.
  destruct (fs !! p) as [[]|] eqn:Hp; simplify_eq; eauto.
Qed.

(** X6.  A relative import that does not resolve ends the scan of its unit,
  and so the whole scan, with that error, whatever follows it in the
  text: the imports before it that are not relative do not matter, and
  those after it are not looked at. *)
Theorem unresolved_import_aborts fuel e st code ms1 dep ms2 :
e ∉ visited st → code_of fs e = Some code →
Re.matches code = ms1 ++ dep :: ms2 →
Forall (λ d, Js.startsWith "." d = false) ms1 →
Js.startsWith "." dep = true →
require_resolve (subentry_request e dep) = None →
scanDeps (S fuel) e st = Throw (MODULE_NOT_FOUND (subentry_request e dep)).
Proof.
intros Hv Hc Hm Hms Hrel Hres.
rewrite (scanDeps_first _ _ _ _ _ _ _ code) by done.
rewrite Hm, scan_loop_app.
edestruct (scan_loop_leaf builtinModules require_resolve pcwd (scanDeps fuel) e ms1)
  as [ds ->]; [exact Hms|].
rewrite scan_loop_cons. unfold scan_import. by rewrite Hrel, Hres.
Qed.

(** *** What was visited, read and warned about *)

Lemma scan_loop_ind_file (P : scan_state → scan_state → Prop)
  (rec : entry → scan_state → outcome scan_state) e :
(∀ st, P st st) →
(∀ st1 st2 st3, P st1 st2 → P st2 st3 → P st1 st3) →
(∀ p st st', rec (File p) st = Ok st' → P st st') →
(∀ st dep, Js.startsWith "." dep = false → package_of dep ∉ builtinModules →
   P st (ScanState (Js.set_add (package_of dep) (deps st))
           (visited st) (warnings st) (reads st))) →
∀ ms st st', scan_loop rec e ms st = Ok st' → P st st'.
Proof.
intros Hrefl Htrans Hrec Hadd ms.
induction ms as [|dep ms IH]; intros st st'; simpl.
- intros [= <-]. apply Hrefl.
- destruct (scan_import rec e st dep) as [st1| |] eqn:Hi; try done.
  intros Hl. apply Htrans with st1; [|by apply IH].
  unfold scan_import in Hi.
  destruct (Js.startsWith "." dep) eqn:Hrel.
  + destruct (require_resolve _); [|done]. by apply Hrec in Hi.
  + case_bool_decide as Hb; simplify_eq; [apply Hrefl | by apply Hadd].
Qed.

Lemma scanDeps_warns_files fuel e st st' x :
scanDeps fuel e st = Ok st' → x ∈ warnings st' →
x ∈ warnings st ∨ (x = e ∧ e ∈ visited st) ∨ ∃ p, x = File p.
Proof.
revert e st st'. induction fuel as [|fuel IH]; intros e st st'; [done|].
simpl. case_bool_decide as Hv.
{ intros [= <-]. simpl. intros [?|Hx%list_elem_of_singleton]%elem_of_app; auto. }
destruct (read_code fs e _) as [[code st2]| |] eqn:Hr; try done.
assert (warnings st2 = warnings st) as Hw.
{ destruct e as [p|b]; simpl in Hr; [|by simplify_eq].
  by destruct (readFile fs p); simplify_eq. }
intros Hl Hx.
enough (x ∈ warnings st2 ∨ ∃ p, x = File p) as [?|?]; [left; congruence|auto|].
revert Hx.
eapply (scan_loop_ind_file
          (λ a b, x ∈ warnings b → x ∈ warnings a ∨ ∃ p, x = File p));
  [| | | |exact Hl].
- tauto.
- intros st1 st3 st4 H1 H2 Hx. destruct (H2 Hx) as [?|?]; auto.
- intros p s s' Hs Hx. destruct (IH _ _ _ Hs Hx) as [?|[[-> _]|?]]; eauto.
- simpl. tauto.
Qed.

Lemma steps_marks st st' :
steps st st' →
((∀ p, File p ∈ visited st ↔ p ∈ reads st) ∧ (∀ x, x ∈ warnings st → x ∈ visited st)) →
(∀ p, File p ∈ visited st' ↔ p ∈ reads st') ∧ (∀ x, x ∈ warnings st' → x ∈ visited st').
Proof.
induction 1 as [|st1 st2 st3 Hs _ IH]; [done|]. intros [Hr Hw]. apply IH.
inversion Hs; subst; simpl; split.
- done.
- intros x [?|Hx%list_elem_of_singleton]%elem_of_app; [auto|by subst].
- intros q. rewrite elem_of_app, list_elem_of_singleton, <- Hr. set_solver.
- intros x Hx. apply Hw in Hx. set_solver.
- intros q. rewrite <- Hr. set_solver.
- intros x Hx. apply Hw in Hx. set_solver.
- done.
- done.
Qed.

Lemma scanDeps_visits fuel e st st' : scanDeps fuel e st = Ok st' → e ∈ visited st'.
Proof.
destruct fuel as [|fuel]; [done|]. simpl. case_bool_decide as Hv.
{ by intros [= <-]. }
destruct (read_code fs e _) as [[code st2]| |] eqn:Hr; try done.
intros Hl.
assert (e ∈ visited st2) as Hin.
{ destruct e as [p|b]; simpl in Hr; [destruct (readFile fs p)|]; simplify_eq;
    simpl; set_solver. }
assert (visited st2 ⊆ visited st') as Hsub; [|by apply Hsub].
eapply (scan_loop_ind_file (λ a b, visited a ⊆ visited b)); [| | | |exact Hl].
- done.
- intros ??? H1 H2. by etrans.
- intros p s s' Hs. apply (steps_visited builtinModules fs).
  apply (scanDeps_steps _ _ _ _ _ _ _ _ Hs).
- done.
Qed.

(** X7.  After a scan from two empty sets the entry is visited, the files
  visited are the files read, and every warning is about a file: one that
  was read in this scan. *)
Theorem scan_visits_reads_warns e st' :
scan e scan_init = Ok st' →
e ∈ visited st'
∧ (∀ p, File p ∈ visited st' ↔ p ∈ reads st')
∧ (∀ x, x ∈ warnings st' → ∃ p, x = File p ∧ p ∈ reads st').
Proof.
intros Hs. pose proof (scanDeps_visits _ _ _ _ Hs) as He.
pose proof (scanDeps_steps _ _ _ _ _ _ _ _ Hs) as Hsteps.
destruct (steps_marks _ _ Hsteps) as [Hr Hw].
{ split; [|by intros ? ?%elem_of_nil]. intros p. simpl. set_solver. }
split_and!; [done..|]. intros x Hx.
destruct (scanDeps_warns_files _ _ _ _ _ Hs Hx) as [Hin|[[_ Hin]|[p ->]]].
- by apply elem_of_nil in Hin.
- set_solver.
- exists p. split; [done|]. by apply Hr, Hw.
Qed.

(** *** The set is the packages of the units visited *)

Local Abbreviation grows := (scan_grows builtinModules fs).

Lemma grows_refl s : grows s s.
Proof. split_and!; auto. Qed.

Lemma grows_trans s1 s2 s3 : grows s1 s2 → grows s2 s3 → grows s1 s3.
Proof.
intros (Hd1 & Hv1 & Hu1 & Hp1) (Hd2 & Hv2 & Hu2 & Hp2). split_and!.
- by etrans.
- by etrans.
- intros u Hu. destruct (Hu2 u Hu) as [Hin|?]; [|auto].
  destruct (Hu1 u Hin) as [?|[? Hall]]; [auto|]. right. split; [done|].
  intros d ??. apply Hd2. by apply Hall.
- intros d Hd. destruct (Hp2 d Hd) as [Hin|?]; [|auto].
  destruct (Hp1 d Hin) as [?|[? (u & ? & ?)]]; [auto|]. right. split; [done|].
  exists u. split; [by apply Hv2|done].
Qed.

Lemma scan_loop_exact rec e code :
code_of fs e = Some code →
(∀ p s s', rec (File p) s = Ok s' → grows s s') →
∀ ms s s',
  (∀ dep, dep ∈ ms → dep ∈ Re.matches code) → e ∈ visited s →
  scan_loop rec e ms s = Ok s' →
  grows s s'
  ∧ ∀ dep, dep ∈ ms → Js.startsWith "." dep = false →
      package_of dep ∉ builtinModules → package_of dep ∈ deps s'.
Proof.
intros Hc Hrec ms. induction ms as [|dep ms IH]; intros s s' Hms He.
{ intros [= <-]. split; [apply grows_refl|]. by intros ? ?%elem_of_nil. }
rewrite scan_loop_cons.
destruct (scan_import rec e s dep) as [s1| |] eqn:Hi; try done. intros Hl.
assert (grows s s1
        ∧ (Js.startsWith "." dep = false → package_of dep ∉ builtinModules →
           package_of dep ∈ deps s1)) as [H1 Hadd].
{ unfold scan_import in Hi. destruct (Js.startsWith "." dep) eqn:Hrel.
  - destruct (require_resolve _); [|done]. split; [by apply Hrec in Hi|done].
  - case_bool_decide as Hb; simplify_eq; [split; [apply grows_refl|done]|].
    split; [|intros _ _; apply set_add_elem; auto].
    split_and!; simpl.
    + intros x ?. apply set_add_elem. auto.
    + done.
    + auto.
    + intros d [->|?]%set_add_elem; [|auto]. right. split; [done|].
      exists e. split; [done|]. exists code, dep. split_and!; try done.
      apply Hms. by left. }
destruct (IH s1 s') as [H2 Hall]; [|by apply H1|done|].
{ intros d Hd. apply Hms. by right. }
split; [by apply grows_trans with s1|].
intros d [->|Hd]%elem_of_cons ??; [|by apply Hall].
destruct H2 as (Hsub & _). apply Hsub. by apply Hadd.
Qed.

Lemma read_code_of e st code st2 :
read_code fs e st = Ok (code, st2) →
code_of fs e = Some code ∧ deps st2 = deps st ∧ visited st2 = visited st.
Proof.
destruct e as [p|b]; simpl; [|by intros [= <- <-]].
unfold readFile. destruct (fs !! p) as [[]|]; [|done..]. by intros [= <- <-].
Qed.

Lemma scanDeps_grows fuel e st st' : scanDeps fuel e st = Ok st' → grows st st'.
Proof.
revert e st st'. induction fuel as [|fuel IH]; intros e st st'; [done|].
simpl. case_bool_decide as Hv.
{ intros [= <-]. split_and!; simpl; auto. }
destruct (read_code fs e _) as [[code st2]| |] eqn:Hr; try done.
apply read_code_of in Hr as (Hc & Hd2 & Hv2). simpl in Hd2, Hv2. intros Hl.
destruct (scan_loop_exact (scanDeps fuel) e code Hc (λ p, IH (File p))
            (Re.matches code) st2 st') as [(Hd & Hvis & Hu & Hp) Hall];
  [done|rewrite Hv2; set_solver|done|].
split_and!.
- by rewrite <- Hd2.
- rewrite <- Hvis, Hv2. set_solver.
- intros u Hin. destruct (Hu u Hin) as [Hin2|?]; [|auto].
  rewrite Hv2 in Hin2. apply elem_of_union in Hin2 as [->%elem_of_singleton|?]; [|auto].
  right. split; [by rewrite Hc|].
  intros d (code' & dep & Hc' & Hdep & Hrel & ->) Hb.
  rewrite Hc in Hc'. simplify_eq. by apply Hall.
- intros d Hin. rewrite <- Hd2. by apply Hp.
Qed.

(** X8.  After a scan from two empty sets, the packages in the set are
  exactly the packages, not in [builtinModules], of the imports that are
  not relative in the texts of the entries visited: none is missed in any
  file that the walk reached, and none comes from elsewhere. *)
Theorem scan_collects_exactly e st' d :
scan e scan_init = Ok st' →
d ∈ deps st'
↔ d ∉ builtinModules ∧ (∃ u, u ∈ visited st' ∧ external_of fs u d).
Proof.
intros Hs. apply scanDeps_grows in Hs as (_ & _ & Hu & Hp). split.
- intros Hd. destruct (Hp d Hd) as [Hin|?]; [|done]. by apply elem_of_nil in Hin.
- intros (Hb & u & Hin & Hext).
  destruct (Hu u Hin) as [Hin0|[_ Hall]]; [set_solver|]. by apply Hall.
Qed.

End ScanExtra.

Lemma scan_without_require_witness :
  Demo.scan_of Demo.diamond_fs (Mem (Blob "-" "console.log('require is not called')"))
  = Ok (ScanState [] ({[Mem (Blob "-" "console.log('require is not called')")]} ∪ ∅) [] []).
Proof.
  apply (scan_without_require Demo.builtins Demo.diamond_fs
           (Demo.resolve_in Demo.diamond_fs) "/app"
           (Mem (Blob "-" "console.log('require is not called')"))
           "console.log('require is not called')"); reflexivity.
Defined.

Lemma scanDeps_appends_witness :
  ["@scope/pkg"] `prefix_of` ["@scope/pkg"; "pkg"; ""]
  ∧ NoDup ["@scope/pkg"; "pkg"; ""].
Proof.
  destruct (scanDeps_appends Demo.builtins Demo.mixed_fs (Demo.resolve_in Demo.mixed_fs)
              "/app" 3 (File "/app/main.js") (ScanState ["@scope/pkg"] ∅ [] [])
              (ScanState ["@scope/pkg"; "pkg"; ""] {[File "/app/main.js"]} []
                 ["/app/main.js"]))
    as (Hp & _ & _ & _ & Hn); [vm_compute; reflexivity|].
  split; [exact Hp|]. apply Hn. compute_done.
Defined.

Lemma relative_never_collected_witness : Js.startsWith "." "left-pad" = false.
Proof.
  apply (relative_never_collected Demo.builtins Demo.diamond_fs
           (Demo.resolve_in Demo.diamond_fs) "/app" (File "/app/main.js")
           (ScanState ["left-pad"]
              {[File "/app/main.js"; File "/app/a.js"; File "/app/util.js"; File "/app/b.js"]}
              [File "/app/util.js"]
              ["/app/main.js"; "/app/a.js"; "/app/util.js"; "/app/b.js"]) "left-pad");
    [vm_compute; reflexivity|compute_done].
Defined.

Lemma scanDeps_throws_witness :
  (∃ p, MODULE_NOT_FOUND "/app/nowhere" = ENOENT p ∧ Demo.mixed_fs !! p = None)
  ∨ (∃ p, MODULE_NOT_FOUND "/app/nowhere" = EISDIR p ∧ Demo.mixed_fs !! p = Some FDir)
  ∨ (∃ r, MODULE_NOT_FOUND "/app/nowhere" = MODULE_NOT_FOUND r
          ∧ Demo.resolve_in Demo.mixed_fs r = None).
Proof.
  apply (scanDeps_throws Demo.builtins Demo.mixed_fs (Demo.resolve_in Demo.mixed_fs) "/app"
           2 (Mem (Blob "-" "require('./nowhere')")) scan_init).
  vm_compute. reflexivity.
Defined.

Lemma unresolved_import_aborts_witness :
  scanDeps Demo.builtins Demo.mixed_fs (Demo.resolve_in Demo.mixed_fs) "/app" 1
    (Mem (Blob "-" "require('a'); require('./nowhere'); require('./main')")) scan_init
  = Throw (MODULE_NOT_FOUND
             (subentry_request "/app"
                (Mem (Blob "-" "require('a'); require('./nowhere'); require('./main')"))
                "./nowhere")).
Proof.
  apply (unresolved_import_aborts Demo.builtins Demo.mixed_fs
           (Demo.resolve_in Demo.mixed_fs) "/app" 0
           (Mem (Blob "-" "require('a'); require('./nowhere'); require('./main')")) scan_init
           "require('a'); require('./nowhere'); require('./main')"
           ["a"] "./nowhere" ["./main"]);
    try reflexivity; compute_done.
Defined.

Lemma scan_visits_reads_warns_witness :
  File "/app/a.js" ∈ ({[File "/app/a.js"; File "/app/b.js"]} : gset entry)
  ∧ (File "/app/b.js" ∈ ({[File "/app/a.js"; File "/app/b.js"]} : gset entry)
     ↔ "/app/b.js" ∈ ["/app/a.js"; "/app/b.js"]).
Proof.
  assert (Demo.scan_of Demo.cycle_fs (File "/app/a.js")
          = Ok (ScanState [] {[File "/app/a.js"; File "/app/b.js"]} [File "/app/a.js"]
                  ["/app/a.js"; "/app/b.js"])) as Hscan by (vm_compute; reflexivity).
  destruct (scan_visits_reads_warns Demo.builtins Demo.cycle_fs
              (Demo.resolve_in Demo.cycle_fs) "/app" (File "/app/a.js") _ Hscan)
    as (Hentry & Hreads & _).
  split; [exact Hentry|exact (Hreads "/app/b.js")].
Defined.

Lemma scan_collects_exactly_witness :
  "left-pad" ∈ ["left-pad"]
  ↔ "left-pad" ∉ Demo.builtins
    ∧ (∃ u, u ∈ ({[File "/app/main.js"; File "/app/a.js"; File "/app/util.js";
                   File "/app/b.js"]} : gset entry)
            ∧ external_of Demo.diamond_fs u "left-pad").
Proof.
  assert (Demo.scan_of Demo.diamond_fs (File "/app/main.js")
          = Ok (ScanState ["left-pad"]
                  {[File "/app/main.js"; File "/app/a.js"; File "/app/util.js";
                    File "/app/b.js"]}
                  [File "/app/util.js"]
                  ["/app/main.js"; "/app/a.js"; "/app/util.js"; "/app/b.js"])) as Hscan
    by (vm_compute; reflexivity).
  exact (scan_collects_exactly Demo.builtins Demo.diamond_fs
           (Demo.resolve_in Demo.diamond_fs) "/app" (File "/app/main.js") _ "left-pad"
           Hscan).
Defined.

(** ** The command line *)

Lemma parse_flags_total cs o : parse_flags cs o ≠ OutOfFuel.
Proof.
  revert o. induction cs as [|c cs IH]; intros o; simpl; [done|].
  repeat (case_match; try done).
Qed.

Lemma resolve_loop_absolute pcwd l acc :
  Js.startsWith "/" pcwd = true → (Path.resolve_loop (l ++ [pcwd]) acc).2 = true.
Proof.
  intros Hc. revert acc. induction l as [|p l IH]; intros acc; simpl.
  - by rewrite (absolute_nonempty pcwd Hc), Hc.
  - destruct (String.length p =? 0); [apply IH|].
    destruct (Js.startsWith "/" p); [done|apply IH].
Qed.

(** [path.resolve] gives an absolute path where [process.cwd()] is one. *)
Lemma resolve_absolute pcwd args :
  Js.startsWith "/" pcwd = true → Js.startsWith "/" (Path.resolve pcwd args) = true.
Proof.
  intros Hc. unfold Path.resolve.
  pose proof (resolve_loop_absolute pcwd (rev args) "" Hc) as Hl.
  destruct (Path.resolve_loop _ _) as [rp ab]. simpl in Hl. subst ab.
  by destruct (Path.normalizeString rp (negb true)).
Qed.

Section ParseExtra.
Variable pcwd : string.

Local Abbreviation parseArgs_loop := (parseArgs_loop pcwd).
Local Abbreviation parseArgs := (parseArgs pcwd).
Local Abbreviation flags_of arg := (String.substring 1 (String.length arg - 1) arg).

(** The cases of [parseArgs_loop], as an induction. *)
Lemma parseArgs_loop_cases
  (P : list string → options → outcome (options * list string) → Prop) :
(∀ o, P [] o (Ok (o, []))) →
(∀ arg args o, is_flag arg = false → P (arg :: args) o (Ok (o, arg :: args))) →
(∀ arg args o o',
   is_flag arg = true → parse_flags (flags_of arg) o = Ok (o', false) →
   P args o' (parseArgs_loop args o') →
   P (arg :: args) o (parseArgs_loop args o')) →
(∀ arg v args o o',
   is_flag arg = true → parse_flags (flags_of arg) o = Ok (o', true) →
   P args (Options (Path.resolve pcwd [v]) (silent o') (clean o') (help o'))
     (parseArgs_loop args
        (Options (Path.resolve pcwd [v]) (silent o') (clean o') (help o'))) →
   P (arg :: v :: args) o
     (parseArgs_loop args
        (Options (Path.resolve pcwd [v]) (silent o') (clean o') (help o')))) →
(∀ arg o o',
   is_flag arg = true → parse_flags (flags_of arg) o = Ok (o', true) →
   P [arg] o (Throw (TypeError "paths[0]"))) →
(∀ arg args o err,
   is_flag arg = true → parse_flags (flags_of arg) o = Throw err →
   P (arg :: args) o (Throw err)) →
∀ args o, P args o (parseArgs_loop args o).
Proof.
intros Hnil Hrest Hflags Hvalue Hmissing Hthrow.
assert (∀ n args, length args ≤ n → ∀ o, P args o (parseArgs_loop args o)) as Hall;
  [|intros args; by apply (Hall (length args))].
induction n as [|n IH]; intros args Hlen o.
{ destruct args; [apply Hnil|simpl in Hlen; lia]. }
destruct args as [|arg args]; [apply Hnil|]. simpl in Hlen.
simpl. destruct (is_flag arg) eqn:Hf; simpl; [|by apply Hrest].
pose proof (parse_flags_total (flags_of arg) o) as Ht.
destruct (parse_flags (flags_of arg) o) as [[o' []]|err|] eqn:Hp; [| | |done].
- destruct args as [|v args]; [by eapply Hmissing|].
  eapply Hvalue; [done..|]. apply IH. simpl in Hlen. lia.
- eapply Hflags; [done..|]. apply IH. lia.
- by apply Hthrow.
Qed.

Lemma parse_flags_keeps cs o o' b :
parse_flags cs o = Ok (o', b) →
cwd o' = cwd o
∧ (silent o = true → silent o' = true)
∧ (clean o = true → clean o' = true)
∧ (help o = true → help o' = true).
Proof.
revert o. induction cs as [|c cs IH]; intros o; simpl; [by intros [= <- <-]|].
repeat case_match; try done; try (by intros [= <- <-]);
  intros Hp; apply IH in Hp as (? & ? & ? & ?); simpl in *; auto.
Qed.

Lemma parse_flags_throws cs o err :
parse_flags cs o = Throw err → err = JsError "-C requires a value".
Proof.
revert o. induction cs as [|c cs IH]; intros o; simpl; [done|].
repeat case_match; try done; try (by intros [= <-]); apply IH.
Qed.

(** X9.  What [parseArgs] returns as [rest] is the tail of the arguments from
  the first one that is not a bundle of flags, a value of [-C] apart: it is
  a suffix of the arguments, and its first element is not a bundle. *)
Theorem parseArgs_rest args o rest :
parseArgs args = Ok (o, rest) →
rest `suffix_of` args ∧ ∀ a rest', rest = a :: rest' → is_flag a = false.
Proof.
unfold parseArgs. generalize (Options "." false false false). intros o0. revert o rest.
apply (parseArgs_loop_cases
         (λ args o0 r, ∀ o rest, r = Ok (o, rest) →
            rest `suffix_of` args ∧ ∀ a rest', rest = a :: rest' → is_flag a = false)).
- intros o1 o rest [= <- <-]. by split.
- intros arg args' o1 Hf o rest [= <- <-]. split; [done|]. by intros a rest' [= <- <-].
- intros arg args' o1 o' Hf Hp IH o rest Hr. destruct (IH o rest Hr) as [Hs ?].
  split; [by apply suffix_cons_r|done].
- intros arg v args' o1 o' Hf Hp IH o rest Hr. destruct (IH o rest Hr) as [Hs ?].
  split; [by do 2 apply suffix_cons_r|done].
- done.
- done.
Qed.

(** X10.  Once an entry file was found, what comes after it on the command
  line is not parsed: more arguments at the end are more arguments of the
  script, and the options stay the same, whatever these arguments look
  like. *)
Theorem parseArgs_trailing args o e rest extra :
parseArgs args = Ok (o, e :: rest) →
parseArgs (args ++ extra) = Ok (o, e :: rest ++ extra).
Proof.
unfold parseArgs. generalize (Options "." false false false). intros o0. revert o e rest.
apply (parseArgs_loop_cases
         (λ args o0 r, ∀ o e rest, r = Ok (o, e :: rest) →
            parseArgs_loop (args ++ extra) o0 = Ok (o, e :: rest ++ extra))).
- done.
- intros arg args' o1 Hf o e rest [= <- <- <-]. simpl. by rewrite Hf.
- intros arg args' o1 o' Hf Hp IH o e rest Hr. simpl. rewrite Hf, Hp. simpl. by apply IH.
- intros arg v args' o1 o' Hf Hp IH o e rest Hr. simpl. rewrite Hf, Hp. simpl.
  by apply IH.
- done.
- done.
Qed.

(** X11.  [parseArgs] throws in two ways only: the error [-C requires a
  value] of line 104, and the type error of [path.resolve] on [undefined]
  where [-C] is the last letter of the last argument. *)
Theorem parseArgs_throws args :
parseArgs args ≠ OutOfFuel
∧ ∀ err, parseArgs args = Throw err →
    err = JsError "-C requires a value" ∨ err = TypeError "paths[0]".
Proof.
unfold parseArgs. generalize (Options "." false false false).
apply (parseArgs_loop_cases
         (λ args o0 r, r ≠ OutOfFuel
            ∧ ∀ err, r = Throw err →
                err = JsError "-C requires a value" ∨ err = TypeError "paths[0]"));
  try done.
- intros arg o o' _ _. split; [done|]. intros err [= <-]. by right.
- intros arg args' o err _ Hp. split; [done|]. intros err' [= <-]. left.
  by apply parse_flags_throws in Hp.
Qed.

Lemma parseArgs_cwd_shape args o rest :
Js.startsWith "/" pcwd = true →
parseArgs args = Ok (o, rest) →
cwd o = "." ∨ Js.startsWith "/" (cwd o) = true.
Proof.
intros Hc. unfold parseArgs.
assert (cwd (Options "." false false false) = "."
        ∨ Js.startsWith "/" (cwd (Options "." false false false)) = true) as H0 by auto.
revert H0. generalize (Options "." false false false). intros o0 H0 Hp.
revert o rest Hp H0.
apply (parseArgs_loop_cases
         (λ args o0 r, ∀ o rest, r = Ok (o, rest) →
            cwd o0 = "." ∨ Js.startsWith "/" (cwd o0) = true →
            cwd o = "." ∨ Js.startsWith "/" (cwd o) = true)).
- by intros o1 o rest [= <- <-].
- by intros arg args' o1 _ o rest [= <- <-].
- intros arg args' o1 o' _ Hp IH o rest Hr H1. apply (IH o rest Hr).
  apply parse_flags_keeps in Hp as (-> & _). done.
- intros arg v args' o1 o' _ Hp IH o rest Hr _. apply (IH o rest Hr).
  right. by apply resolve_absolute.
- done.
- done.
Qed.

Lemma parseArgs_cwd_nonempty args o rest :
Js.startsWith "/" pcwd = true →
parseArgs args = Ok (o, rest) → nonempty (cwd o) = true.
Proof.
intros Hc Hp. destruct (parseArgs_cwd_shape _ _ _ Hc Hp) as [->|Ha]; [done|].
by destruct (cwd o).
Qed.

(** X12.  The working directory of the options is [.], when no [-C] was
  given, or an absolute path; so it is never the empty string, and the
  tests of [options.cwd] on lines 77 and 162 always pass. *)
Theorem parseArgs_cwd args o rest :
Js.startsWith "/" pcwd = true →
parseArgs args = Ok (o, rest) →
(cwd o = "." ∨ Js.startsWith "/" (cwd o) = true) ∧ nonempty (cwd o) = true.
Proof.
intros Hc Hp. split; [by eapply parseArgs_cwd_shape|by eapply parseArgs_cwd_nonempty].
Qed.

(** X13.  A flag that one bundle sets is not taken back by a later one: the
  options [silent], [clean] and [help] only ever go from unset to set
  while the arguments are read. *)
Theorem parseArgs_loop_accumulates args o o' rest :
parseArgs_loop args o = Ok (o', rest) →
(silent o = true → silent o' = true)
∧ (clean o = true → clean o' = true)
∧ (help o = true → help o' = true).
Proof.
revert o' rest.
apply (parseArgs_loop_cases
         (λ args o r, ∀ o' rest, r = Ok (o', rest) →
            (silent o = true → silent o' = true)
            ∧ (clean o = true → clean o' = true)
            ∧ (help o = true → help o' = true))).
- by intros o1 o' rest [= <- <-].
- by intros arg args' o1 _ o' rest [= <- <-].
- intros arg args' o1 o2 _ Hp IH o' rest Hr.
  apply parse_flags_keeps in Hp as (_ & ? & ? & ?).
  destruct (IH o' rest Hr) as (? & ? & ?). auto.
- intros arg v args' o1 o2 _ Hp IH o' rest Hr.
  apply parse_flags_keeps in Hp as (_ & ? & ? & ?).
  destruct (IH o' rest Hr) as (? & ? & ?). simpl in *. auto.
- done.
- done.
Qed.

End ParseExtra.

Lemma parseArgs_rest_witness :
  ["main.js"; "-s"] `suffix_of` ["-sc"; "-C"; "/work"; "main.js"; "-s"]
  ∧ ∀ a rest', ["main.js"; "-s"] = a :: rest' → is_flag a = false.
Proof.
  apply (parseArgs_rest "/app" ["-sc"; "-C"; "/work"; "main.js"; "-s"]
           (Options "/work" true true false)).
  vm_compute. reflexivity.
Defined.

Lemma parseArgs_trailing_witness :
  parseArgs "/app" (["-s"; "main.js"] ++ ["-C"; "-h"])
  = Ok (Options "." true false false, "main.js" :: [] ++ ["-C"; "-h"]).
Proof. apply (parseArgs_trailing "/app" ["-s"; "main.js"]). reflexivity. Defined.

Lemma parseArgs_throws_witness :
  TypeError "paths[0]" = JsError "-C requires a value"
  ∨ TypeError "paths[0]" = TypeError "paths[0]".
Proof. apply (proj2 (parseArgs_throws "/app" ["-s"; "-cC"])). reflexivity. Defined.

Lemma parseArgs_cwd_witness :
  (cwd (Options "/app/out" false false false) = "."
   ∨ Js.startsWith "/" (cwd (Options "/app/out" false false false)) = true)
  ∧ nonempty (cwd (Options "/app/out" false false false)) = true.
Proof.
  apply (parseArgs_cwd "/app" ["-C"; "out"; "main.js"] _ ["main.js"]);
    vm_compute; reflexivity.
Defined.

Lemma parseArgs_loop_accumulates_witness :
  (silent (Options "." true false false) = true
   → silent (Options "." true true false) = true)
  ∧ (clean (Options "." true false false) = true
     → clean (Options "." true true false) = true)
  ∧ (help (Options "." true false false) = true
     → help (Options "." true true false) = true).
Proof.
  apply (parseArgs_loop_accumulates "/app" ["-c"; "-x"; "main.js"] _ _ ["main.js"]).
  reflexivity.
Defined.

Lemma substring_all s : String.substring 0 (String.length s) s = s.
Proof. induction s as [|c s IH]; [done|]. simpl. by rewrite IH. Qed.

Lemma flags_of_dash x :
  String.substring 1 (String.length (String "-" x) - 1) (String "-" x) = x.
Proof. simpl. rewrite Nat.sub_0_r. apply substring_all. Qed.

Lemma parse_flags_value_inside pre c post o :
  occurs "C" pre = false →
  parse_flags (pre +:+ String "C" (String c post)) o = Throw (JsError "-C requires a value").
Proof.
  revert o. induction pre as [|a pre IH]; intros o Ho; [reflexivity|].
  cbn [occurs Re.strip_prefix] in Ho. rewrite app_cons_s. cbn [parse_flags].
  destruct (Ascii.eqb "C" a) eqn:Ha; [done|].
  rewrite Ascii.eqb_sym in Ha. rewrite Ha.
  repeat case_match; by apply IH.
Qed.

(** X14.  A bundle of flags in which something follows the first [C] is an
    error, whatever follows it and whatever the other arguments are: [-C]
    takes its value from the next argument only. *)
Theorem value_inside_bundle pcwd pre c post args o :
  occurs "C" pre = false →
  is_flag (String "-" (pre +:+ String "C" (String c post))) = true →
  parseArgs_loop pcwd (String "-" (pre +:+ String "C" (String c post)) :: args) o
  = Throw (JsError "-C requires a value").
Proof.
  intros Ho Hf. cbn [parseArgs_loop]. rewrite Hf. cbn [negb].
  by rewrite flags_of_dash, parse_flags_value_inside.
Qed.

Lemma value_inside_bundle_witness :
  parseArgs_loop "/app" ["-sC/work"; "main.js"] (Options "." false false false)
  = Throw (JsError "-C requires a value").
Proof.
  apply (value_inside_bundle "/app" "s" "/" "work" ["main.js"]); reflexivity.
Defined.

(** ** Standard input *)




(** ** The working directory *)

Lemma mkdir_all_adds qs fs fs' :
  mkdir_all qs fs = Ok fs' →
  (∀ p x, fs !! p = Some x → fs' !! p = Some x)
  ∧ ∀ q, q ∈ qs → fs' !! q = Some FDir.
Proof.
  revert fs. induction qs as [|q qs IH]; intros fs; simpl.
  { intros [= <-]. split; [done|]. by intros ? ?%elem_of_nil. }
  destruct (fs !! q) as [[]|] eqn:Hq; [done| |]; intros H;
    destruct (IH _ H) as [Hkeep Hdirs]; split.
  - done.
  - intros q' [->|?]%elem_of_cons; [by apply Hkeep|by apply Hdirs].
  - intros p x Hp. apply Hkeep. rewrite lookup_insert_ne; [done|]. intros ->. congruence.
  - intros q' [->|?]%elem_of_cons; [|by apply Hdirs].
    apply Hkeep. by rewrite lookup_insert_eq.
Qed.

Section WorkdirExtra.
Variable pcwd : string.

Local Abbreviation abs := (abs pcwd).
Local Abbreviation prepare := (prepare pcwd).
Local Abbreviation ensure_cwd := (ensure_cwd pcwd).
Local Abbreviation ensure_pkg := (ensure_pkg pcwd).
Local Abbreviation cleanup := (cleanup pcwd).
Local Abbreviation cleanup_paths := (cleanup_paths pcwd).
Local Abbreviation pkgFile := (pkgFile pcwd).
Local Abbreviation modulesPath := (modulesPath pcwd).
Local Abbreviation rm := (rm pcwd).

Lemma ensure_cwd_adds o w b w' :
ensure_cwd o w = (Ok b, w') → nonempty (cwd o) = true →
(∀ p x, w_fs w !! p = Some x → w_fs w' !! p = Some x)
∧ is_Some (w_fs w' !! abs (cwd o))
∧ (b = true ↔ w_fs w !! abs (cwd o) = None).
Proof.
unfold ensure_cwd, bind, exists_, ret. intros H Hne. rewrite Hne in H. simpl in H.
case_bool_decide as Hthere; simpl in H.
- simplify_eq. split_and!; [done..|]. split; [done|]. intros Hn.
  rewrite Hn in Hthere. by destruct Hthere.
- unfold mkdir in H.
  destruct (mkdir_all _ (w_fs w)) as [fs'| |] eqn:Hm; simplify_eq. simpl.
  apply mkdir_all_adds in Hm as [Hkeep Hdirs]. split_and!; [done| |].
  + exists FDir. apply Hdirs. set_solver.
  + split; [intros _|done]. by apply eq_None_not_Some.
Qed.

Lemma ensure_pkg_adds o w b w' :
ensure_pkg o w = (Ok b, w') →
(∀ p x, w_fs w !! p = Some x → w_fs w' !! p = Some x)
∧ is_Some (w_fs w' !! abs (pkgFile o))
∧ (b = true → w_fs w' !! abs (pkgFile o) = Some (FFile "{}")).
Proof.
unfold ensure_pkg, bind, exists_, ret. case_bool_decide as Hthere; simpl.
- intros [= <- <-]. by split_and!.
- apply eq_None_not_Some in Hthere. unfold writeFile. rewrite Hthere.
  destruct (w_fs w !! Path.dirname (abs (pkgFile o))) as [[]|]; try done.
  intros [= <- <-]. simpl. split_and!.
  + intros p x Hp. rewrite lookup_insert_ne; [done|]. intros <-. congruence.
  + rewrite lookup_insert_eq. eauto.
  + intros _. by rewrite lookup_insert_eq.
Qed.

(** X16.  Where [prepare] succeeds, it has only added to the file system:
  every path that was there is there as it was, so a manifest that was
  there is not overwritten.  The working directory and the manifest are
  there afterwards; a manifest that was written is the empty object; and
  the flag of the working directory is set exactly where the directory was
  missing, that of [node_modules] exactly where it is missing now. *)
Theorem prepare_only_adds o w fl w' :
nonempty (cwd o) = true →
prepare o w = (Ok fl, w') →
(∀ p x, w_fs w !! p = Some x → w_fs w' !! p = Some x)
∧ is_Some (w_fs w' !! abs (cwd o))
∧ is_Some (w_fs w' !! abs (pkgFile o))
∧ (cleanCwd fl = true ↔ w_fs w !! abs (cwd o) = None)
∧ (cleanPkg fl = true → w_fs w' !! abs (pkgFile o) = Some (FFile "{}"))
∧ (cleanModules fl = true ↔ w_fs w' !! abs (modulesPath o) = None).
Proof.
intros Hne. unfold prepare, bind.
destruct (ensure_cwd o w) as [[b1| |] w1] eqn:H1; try done.
apply ensure_cwd_adds in H1 as (Hk1 & [x1 Hc1] & Hb1); [|done].
destruct (ensure_pkg o w1) as [[b2| |] w2] eqn:H2; try done.
apply ensure_pkg_adds in H2 as (Hk2 & Hp2 & Hb2).
unfold exists_, ret. intros [= <- <-]. simpl. split_and!; try done.
- auto.
- exists x1. by apply Hk2.
- rewrite negb_true_iff, bool_decide_eq_false. by rewrite eq_None_not_Some.
Qed.

(** *** Removal *)

Lemma rm_lookup p w q :
w_fs (rm p w).2 !! q = if removes (abs p) q then None else w_fs w !! q.
Proof.
unfold rm. simpl. apply option_eq. intros x. rewrite map_lookup_filter_Some. simpl.
destruct (removes (abs p) q); naive_solver.
Qed.

Lemma rm_if_lookup (b : bool) p w r w' q :
(if b then rm p else ret tt) w = (r, w') →
r = Ok tt
∧ w_fs w' !! q = if b && removes (abs p) q then None else w_fs w !! q.
Proof.
destruct b; simpl.
- intros H. rewrite <- (rm_lookup p w q), H. split; [|done].
  unfold rm in H. by inversion H.
- by intros [= <- <-].
Qed.

Lemma cleanup_lookup o fl w r w' q :
cleanup o fl w = (r, w') →
w_fs w' !! q
= if existsb (λ p, removes p q) (cleanup_paths o fl) then None else w_fs w !! q.
Proof.
unfold cleanup, cleanup_paths, bind.
destruct (clean o); [|by intros [= <- <-]].
destruct ((if cleanModules fl then rm (modulesPath o) else ret ()) w) as [r1 w1] eqn:H1.
destruct (rm_if_lookup _ _ _ _ _ q H1) as [-> L1].
destruct ((if cleanPkg fl then rm (pkgFile o) else ret ()) w1) as [r2 w2] eqn:H2.
destruct (rm_if_lookup _ _ _ _ _ q H2) as [-> L2].
intros H3. destruct (rm_if_lookup _ _ _ _ _ q H3) as [_ L3].
rewrite L3, L2, L1, !existsb_app.
destruct (cleanModules fl), (cleanPkg fl), (cleanCwd fl); simpl;
  repeat (destruct (removes _ q); simpl; try done).
Qed.

(** X17.  What [cleanup] does to the file system: every path that it removes
  is gone with all that was below it, and a path that is neither one of
  these nor below one of them is as it was. *)
Theorem cleanup_file_system o fl w r w' :
cleanup o fl w = (r, w') →
(∀ p q, p ∈ cleanup_paths o fl → removes p q = true → w_fs w' !! q = None)
∧ (∀ q, (∀ p, p ∈ cleanup_paths o fl → removes p q = false) →
     w_fs w' !! q = w_fs w !! q).
Proof.
intros Hc. split.
- intros p q Hp Hr. rewrite (cleanup_lookup _ _ _ _ _ q Hc).
  assert (existsb (λ p, removes p q) (cleanup_paths o fl) = true) as ->; [|done].
  apply existsb_exists. exists p. split; [by apply list_elem_of_In|done].
- intros q Hq. rewrite (cleanup_lookup _ _ _ _ _ q Hc).
  destruct (existsb _ _) eqn:He; [|done].
  apply existsb_exists in He as (p & Hp%list_elem_of_In & Hr).
  rewrite (Hq p Hp) in Hr. done.
Qed.

End WorkdirExtra.

Section MainExtra.
Variable builtinModules : list string.
Variable require_resolve : string → option string.
Variable pcwd : string.
Variable child : spawn_request → gmap string fnode → child_exit * gmap string fnode.

Local Abbreviation modulesPath := (modulesPath pcwd).
Local Abbreviation run_request := (run_request pcwd).
Local Abbreviation run_entry := (run_entry builtinModules require_resolve pcwd child).
Local Abbreviation run_cases := (run_cases builtinModules require_resolve pcwd child).
Local Abbreviation main := (main builtinModules require_resolve pcwd child).

(** *** The children *)

(** X18.  With an installer that fails whenever it is started, [main] starts
  no other child, removes nothing, and does not succeed, unless it only
  printed the usage. *)
Theorem failing_installer_stops_main argv stdin fs r w' :
(∀ req fs0, sp_command req = "npm" → exit_ok (child req fs0).1 = false) →
main argv stdin (World fs []) = (r, w') →
Forall (λ req, sp_command req = "npm") (spawned (w_out w'))
∧ length (spawned (w_out w')) ≤ 1
∧ removed (w_out w') = []
∧ (r = Ok tt → spawned (w_out w') = []).
Proof.
intros Hfail Hm.
apply main_cases in Hm as [(Hs & Hr & _)|(o & rest & e & _ & _ & Hrun)].
{ rewrite Hs, Hr. simpl. split_and!; [constructor|lia|done..]. }
apply run_entry_cases in Hrun as (sp & rmv & Hc & -> & ->). simpl.
destruct Hc as [err ?|st w1 err w2 ? ?|st w1 fl w2 err ? ? Hex
               |st w1 fl w2 fs3 err ? ? Hex ? ?|st w1 fl w2 fs3 ? ? Hex ? ?].
- split_and!; [constructor|simpl; lia|done..].
- split_and!; [constructor|simpl; lia|done..].
- split_and!; [by repeat constructor|simpl; lia|done..].
- rewrite Hfail in Hex; done.
- rewrite Hfail in Hex; done.
Qed.

(** X19.  The children of [main], where [process.cwd()] is absolute: the
  first is [npm], started in the working directory of the options, silent
  where [-s] was given, with nothing written to its standard input and
  the three arguments of line 80 first; the second, if there is one, is
  [node] on the arguments from the entry file on, in the directory of the
  caller and never silent, with [NODE_PATH] set to the [node_modules] of
  the working directory.  There is no third. *)
Theorem main_children argv o rest stdin fs r w' i req :
Js.startsWith "/" pcwd = true →
parseArgs pcwd argv = Ok (o, rest) →
main argv stdin (World fs []) = (r, w') →
spawned (w_out w') !! i = Some req →
(i = 0 ∧ sp_command req = "npm" ∧ sp_cwd req = Some (cwd o)
 ∧ sp_silent req = silent o ∧ sp_stdin req = None ∧ sp_NODE_PATH req = None
 ∧ take 3 (sp_args req) = ["install"; "--no-save"; "--no-package-lock"])
∨ (i = 1 ∧ sp_command req = "node" ∧ sp_args req = rest ∧ sp_cwd req = None
   ∧ sp_silent req = false ∧ sp_NODE_PATH req = Some (modulesPath o)).
Proof.
intros Hc Hp Hm Hi.
pose proof (parseArgs_cwd_nonempty pcwd _ _ _ Hc Hp) as Hne.
apply main_cases in Hm as [(Hs & _)|(o' & rest' & e & Hp' & _ & Hrun)].
{ by rewrite Hs in Hi. }
rewrite Hp in Hp'. simplify_eq.
apply run_entry_cases in Hrun as (sp & rmv & Hcases & Hs & _).
rewrite Hs in Hi. simpl in Hi.
assert (∀ ds, sp_command (install_request o' ds) = "npm"
              ∧ sp_cwd (install_request o' ds) = Some (cwd o')
              ∧ sp_silent (install_request o' ds) = silent o'
              ∧ sp_stdin (install_request o' ds) = None
              ∧ sp_NODE_PATH (install_request o' ds) = None
              ∧ take 3 (sp_args (install_request o' ds))
                = ["install"; "--no-save"; "--no-package-lock"]) as Hinst.
{ intros ds. unfold install_request. simpl. by rewrite Hne. }
destruct Hcases as [err ?|st w1 err w2 ? ?|st w1 fl w2 err ? ? ?
                   |st w1 fl w2 fs3 err ? ? ? ? ?|st w1 fl w2 fs3 ? ? ? ? ?];
  try done.
- destruct i as [|[|]]; simpl in Hi; simplify_eq. left. split; [done|apply Hinst].
- destruct i as [|[|[|]]]; simpl in Hi; simplify_eq.
  + left. split; [done|apply Hinst].
  + right. by split_and!.
- destruct i as [|[|[|]]]; simpl in Hi; simplify_eq.
  + left. split; [done|apply Hinst].
  + right. by split_and!.
Qed.

(** *** The scan and the options *)

(** The first child of [main]: the installer, on the packages of the scan of
  the entry that lines 150 to 157 make of the first argument of [rest]. *)
Lemma main_first_child argv o rest stdin fs r w' q :
parseArgs pcwd argv = Ok (o, rest) →
main argv stdin (World fs []) = (r, w') →
spawned (w_out w') !! 0 = Some q →
∃ f tl e st,
  rest = f :: tl
  ∧ (f = "-" ∧ e = Mem (Blob f (readStream stdin))
     ∨ f ≠ "-" ∧ File <$> require_resolve (Path.resolve pcwd [f]) = Some e)
  ∧ scan builtinModules fs require_resolve pcwd e scan_init = Ok st
  ∧ q = install_request o (deps st).
Proof.
intros Hp Hm Hq. unfold main, bind, lift in Hm. rewrite Hp in Hm.
destruct (help o); [unfold emit in Hm; by simplify_eq|].
destruct rest as [|f tl]; [unfold emit, throw in Hm; by simplify_eq|].
destruct (nonempty f); [|unfold emit, throw in Hm; by simplify_eq].
assert (∀ e, run_entry o (f :: tl) e (World fs []) = (r, w') →
             ∃ st, scan builtinModules fs require_resolve pcwd e scan_init = Ok st
                   ∧ q = install_request o (deps st)) as Hrun.
{ intros e Hrun. apply run_entry_cases in Hrun as (sp & rmv & Hc & Hs & _).
  rewrite Hs in Hq. simpl in Hq.
  assert (∀ st w1, run_scan builtinModules require_resolve pcwd e (World fs [])
                   = (Ok st, w1) →
                   scan builtinModules fs require_resolve pcwd e scan_init = Ok st)
    as Hscan.
  { intros st w1 H1. by apply run_scan_inv in H1 as (_ & _ & _ & ? & _). }
  destruct Hc as [err ?|st w1 err w2 H1 ?|st w1 fl w2 err H1 ? ?
                 |st w1 fl w2 fs3 err H1 ? ? ? ?|st w1 fl w2 fs3 H1 ? ? ? ?];
    simpl in Hq; simplify_eq; eauto. }
case_bool_decide as Hf.
- unfold ret in Hm. destruct (Hrun _ Hm) as (st & ? & ?).
  exists f, tl, (Mem (Blob f (readStream stdin))), st. split_and!; [done|by left|done..].
- destruct (require_resolve (Path.resolve pcwd [f])) as [p|] eqn:Hres.
  + unfold ret in Hm. destruct (Hrun _ Hm) as (st & ? & ?).
    exists f, tl, (File p), st. split_and!; [done|right; by rewrite Hres|done..].
  + unfold throw in Hm. by simplify_eq.
Qed.

(** X20.  The options do not change what is scanned: the entry is resolved
  from the directory of the caller, not from that of [-C], and the scan is
  done before anything is made there.  So two command lines with the same
  arguments from the entry file on, run on the same machine and input, ask
  the installer for the same packages, where both get to start it. *)
Theorem options_do_not_change_scan argv1 argv2 o1 o2 rest stdin fs r1 w1 r2 w2 q1 q2 :
parseArgs pcwd argv1 = Ok (o1, rest) →
parseArgs pcwd argv2 = Ok (o2, rest) →
main argv1 stdin (World fs []) = (r1, w1) →
main argv2 stdin (World fs []) = (r2, w2) →
spawned (w_out w1) !! 0 = Some q1 →
spawned (w_out w2) !! 0 = Some q2 →
sp_args q1 = sp_args q2.
Proof.
intros Hp1 Hp2 Hm1 Hm2 Hq1 Hq2.
destruct (main_first_child _ _ _ _ _ _ _ _ Hp1 Hm1 Hq1)
  as (f & tl & e & st & -> & He & Hs & ->).
destruct (main_first_child _ _ _ _ _ _ _ _ Hp2 Hm2 Hq2)
  as (f' & tl' & e' & st' & [= <- <-] & He' & Hs' & ->).
assert (e' = e) as ->.
{ destruct He as [[? ->]|[? He]], He' as [[? ->]|[? He']]; try done.
  rewrite He in He'. by simplify_eq. }
rewrite Hs in Hs'. by simplify_eq.
Qed.

End MainExtra.

Lemma prepare_only_adds_witness :
  is_Some (w_fs (prepare "/app" Demo.clean_tmp (World Demo.fresh_fs [])).2
             !! abs "/app" (cwd Demo.clean_tmp))
  ∧ (∀ p x, Demo.fresh_fs !! p = Some x →
       w_fs (prepare "/app" Demo.clean_tmp (World Demo.fresh_fs [])).2 !! p = Some x).
Proof.
  destruct (prepare_only_adds "/app" Demo.clean_tmp (World Demo.fresh_fs [])
              (Owned true true true)
              (prepare "/app" Demo.clean_tmp (World Demo.fresh_fs [])).2)
    as (Hkeep & Hcwd & _); [reflexivity|vm_compute; reflexivity|].
  split; [exact Hcwd|exact Hkeep].
Defined.

Lemma cleanup_file_system_witness :
  w_fs (cleanup "/app" Demo.clean_tmp (Owned true true true)
          (World (<["/tmp/run/data" := FFile "x"]> Demo.fresh_fs) [])).2
    !! "/tmp/run/data" = None.
Proof.
  apply (proj1 (cleanup_file_system "/app" Demo.clean_tmp (Owned true true true)
                  (World (<["/tmp/run/data" := FFile "x"]> Demo.fresh_fs) [])
                  (cleanup "/app" Demo.clean_tmp (Owned true true true)
                     (World (<["/tmp/run/data" := FFile "x"]> Demo.fresh_fs) [])).1
                  (cleanup "/app" Demo.clean_tmp (Owned true true true)
                     (World (<["/tmp/run/data" := FFile "x"]> Demo.fresh_fs) [])).2
                  (surjective_pairing _)) "/tmp/run" "/tmp/run/data");
    compute_done.
Defined.

Lemma failing_installer_stops_main_witness :
  removed (w_out (Demo.main_of Demo.exit1 Demo.used_fs ["-c"; "main.js"] []).2) = [].
Proof.
  destruct (failing_installer_stops_main Demo.builtins (Demo.resolve_in Demo.used_fs)
              "/app" (Demo.child Demo.exit1) ["-c"; "main.js"] [] Demo.used_fs
              (Demo.main_of Demo.exit1 Demo.used_fs ["-c"; "main.js"] []).1
              (Demo.main_of Demo.exit1 Demo.used_fs ["-c"; "main.js"] []).2)
    as (_ & _ & Hr & _).
  - intros req fs0 Hnpm. unfold Demo.child. by rewrite bool_decide_eq_true_2.
  - apply surjective_pairing.
  - exact Hr.
Defined.

Lemma main_children_witness :
  (1 = 0 ∧ sp_command (run_request "/app" (Options "/work" true false false)
                         ["main.js"; "x"] (File "/app/main.js")) = "npm"
   ∧ sp_cwd (run_request "/app" (Options "/work" true false false)
               ["main.js"; "x"] (File "/app/main.js")) = Some "/work"
   ∧ sp_silent (run_request "/app" (Options "/work" true false false)
                  ["main.js"; "x"] (File "/app/main.js")) = true
   ∧ sp_stdin (run_request "/app" (Options "/work" true false false)
                 ["main.js"; "x"] (File "/app/main.js")) = None
   ∧ sp_NODE_PATH (run_request "/app" (Options "/work" true false false)
                     ["main.js"; "x"] (File "/app/main.js")) = None
   ∧ take 3 (sp_args (run_request "/app" (Options "/work" true false false)
                        ["main.js"; "x"] (File "/app/main.js")))
     = ["install"; "--no-save"; "--no-package-lock"])
  ∨ (1 = 1
     ∧ sp_command (run_request "/app" (Options "/work" true false false)
                     ["main.js"; "x"] (File "/app/main.js")) = "node"
     ∧ sp_args (run_request "/app" (Options "/work" true false false)
                  ["main.js"; "x"] (File "/app/main.js")) = ["main.js"; "x"]
     ∧ sp_cwd (run_request "/app" (Options "/work" true false false)
                 ["main.js"; "x"] (File "/app/main.js")) = None
     ∧ sp_silent (run_request "/app" (Options "/work" true false false)
                    ["main.js"; "x"] (File "/app/main.js")) = false
     ∧ sp_NODE_PATH (run_request "/app" (Options "/work" true false false)
                       ["main.js"; "x"] (File "/app/main.js"))
       = Some (modulesPath "/app" (Options "/work" true false false))).
Proof.
  apply (main_children Demo.builtins (Demo.resolve_in Demo.used_fs) "/app"
           (Demo.child Demo.exit0) ["-s"; "-C"; "/work"; "main.js"; "x"]
           (Options "/work" true false false) ["main.js"; "x"] [] Demo.used_fs
           (Demo.main_of Demo.exit0 Demo.used_fs
              ["-s"; "-C"; "/work"; "main.js"; "x"] []).1
           (Demo.main_of Demo.exit0 Demo.used_fs
              ["-s"; "-C"; "/work"; "main.js"; "x"] []).2 1
           (run_request "/app" (Options "/work" true false false) ["main.js"; "x"]
              (File "/app/main.js")));
    [reflexivity|vm_compute; reflexivity|apply surjective_pairing|vm_compute; reflexivity].
Defined.

Lemma options_do_not_change_scan_witness :
  sp_args (install_request (Options "/work" true false false) ["left-pad"])
  = sp_args (install_request (Options "." false false false) ["left-pad"]).
Proof.
  apply (options_do_not_change_scan Demo.builtins (Demo.resolve_in Demo.used_fs) "/app"
           (Demo.child Demo.exit0)
           ["-s"; "-C"; "/work"; "main.js"; "x"] ["main.js"; "x"]
           (Options "/work" true false false) (Options "." false false false)
           ["main.js"; "x"] [] Demo.used_fs
           (Demo.main_of Demo.exit0 Demo.used_fs
              ["-s"; "-C"; "/work"; "main.js"; "x"] []).1
           (Demo.main_of Demo.exit0 Demo.used_fs
              ["-s"; "-C"; "/work"; "main.js"; "x"] []).2
           (Demo.main_of Demo.exit0 Demo.used_fs ["main.js"; "x"] []).1
           (Demo.main_of Demo.exit0 Demo.used_fs ["main.js"; "x"] []).2);
    [reflexivity|reflexivity|apply surjective_pairing|apply surjective_pairing
    |vm_compute; reflexivity|vm_compute; reflexivity].
Defined.
